(** * Combo-AT WiFi driver (package comboat): parser, correlator, socket table

    Shallow embedding of [comboat/comboat.go] and of the error table that
    belongs to the same package ([errStrings], [getErrStr]).

    Conventions.
    - A Go [string] is a [string]; a Go [[]byte] is a [list ascii] (one
      [ascii] per byte).  [str b] is the conversion [string(b)] and
      [bytes_of s] is [[]byte(s)].
    - Indices and lengths ([d.pos], [len(x)], socket descriptors that passed
      the range check) are [nat]; values of Go type [int] that come from the
      wire or from the caller are [Z].
    - The fixed arrays [d.buf] and [d.sockets] are lists of the array's
      length, read with [!!] and written with [<[i:=x]>].
    - The driver runs two threads: the reader ([serviceUART]) and the caller
      of the socket interface.  Each function is embedded as a sequential
      function on the device state; what it sends on the unbuffered channels
      [d.ok], [d.txReady], [d.err] is returned as a list of events, and what a
      [select] receives is read from a script held by the [world]. *)

From Stdlib Require Import ZArith Lia Ascii String.
From stdpp Require Import base numbers list strings gmap.

Local Open Scope string_scope.
Local Open Scope list_scope.
Local Open Scope nat_scope.

(** ** Byte slices and strings *)

Abbreviation bytes := (list ascii).

Definition bytes_of (s : string) : bytes := list_ascii_of_string s.
Definition str (b : bytes) : string := string_of_list_ascii b.
Arguments bytes_of : simpl never.

Definition CR : ascii := "013"%char.
Definition LF : ascii := "010"%char.
Definition CRLF : bytes := [CR; LF].

(** [bytes.HasPrefix(s, prefix)] *)
Fixpoint HasPrefix (s prefix : bytes) : bool :=
  match prefix, s with
  | [], _ => true
  | p :: prefix', c :: s' => Ascii.eqb c p && HasPrefix s' prefix'
  | _ :: _, [] => false
  end.

(** [bytes.HasSuffix(s, suffix)]:
    [len(s) >= len(suffix) && Equal(s[len(s)-len(suffix):], suffix)] *)
Definition HasSuffix (s suffix : bytes) : bool :=
  (length suffix <=? length s)
  && bool_decide (drop (length s - length suffix) s = suffix).

(** [bytes.Split(s, sep)] for a one-byte separator (every call site of the
    driver passes ":", "," or "=").  An empty [s] gives one empty part. *)
Fixpoint Split (s : bytes) (sep : ascii) : list bytes :=
  match s with
  | [] => [[]]
  | c :: s' =>
      if Ascii.eqb c sep then [] :: Split s' sep
      else match Split s' sep with
           | p :: ps => (c :: p) :: ps
           | [] => [[c]]
           end
  end.

(** [bytes.SplitN(s, sep, n)] for a one-byte separator and [n >= 0]: at most
    [n] parts, the last one being the unsplit rest; [n = 0] gives no part. *)
Fixpoint SplitN (s : bytes) (sep : ascii) (n : nat) {struct s} : list bytes :=
  match n with
  | O => []
  | S O => [s]
  | S (S _ as n') =>
      match s with
      | [] => [[]]
      | c :: s' =>
          if Ascii.eqb c sep then [] :: SplitN s' sep n'
          else match SplitN s' sep n with
               | p :: ps => (c :: p) :: ps
               | [] => [[c]]
               end
      end
  end.

(** ** strconv *)

(** Width of Go's [int] on the targets of the driver (rp2040, rp2350). *)
Definition intSize : Z := 32.
Definition maxInt : Z := (2 ^ (intSize - 1) - 1)%Z.
Definition minInt : Z := (- 2 ^ (intSize - 1))%Z.

Definition digit (c : ascii) : option Z :=
  let n := Z.of_nat (nat_of_ascii c) in
  if (48 <=? n)%Z && (n <=? 57)%Z then Some (n - 48)%Z else None.

Fixpoint digits (acc : Z) (s : bytes) : option Z :=
  match s with
  | [] => Some acc
  | c :: s' =>
      match digit c with
      | Some v => digits (acc * 10 + v)%Z s'
      | None => None
      end
  end.

(** [strconv.Atoi(s)]: an optional sign, then one or more decimal digits; the
    value must fit [int].  [None] stands for a non-nil error. *)
Definition Atoi (s : string) : option Z :=
  let b := bytes_of s in
  let '(neg, ds) :=
    match b with
    | c :: rest =>
        if Ascii.eqb c "-" then (true, rest)
        else if Ascii.eqb c "+" then (false, rest)
        else (false, b)
    | [] => (false, b)
    end in
  match ds with
  | [] => None
  | _ =>
      match digits 0%Z ds with
      | Some v =>
          let v' := if neg then (- v)%Z else v in
          if (minInt <=? v')%Z && (v' <=? maxInt)%Z then Some v' else None
      | None => None
      end
  end.

(** [strconv.Itoa] / the [%d] verb of [fmt.Sprintf], for a length. *)
Fixpoint itoa_fuel (fuel : nat) (n : nat) (acc : bytes) : bytes :=
  match fuel with
  | O => acc
  | S fuel' =>
      let d := ascii_of_nat (48 + n mod 10) in
      if n <? 10 then d :: acc
      else itoa_fuel fuel' (n / 10) (d :: acc)
  end.

Definition Itoa (n : nat) : string := str (itoa_fuel (S n) n []).

(** ** Error table *)

(** [errStrings] *)
Definition errStrings : gmap Z string :=
  list_to_map [
    (0%Z,  "success");
    (1%Z,  "The command is not supported (the combo framework contains the command but the current platform has not transplanted or adapted to support it)");
    (2%Z,  "The command parameters contain unsupported operations (the current platform only supports some operations for this command)");
    (3%Z,  "The instruction format is incorrect (this refers to the wrong number of parameters, for example, two parameters are required, but only one parameter is entered)");
    (4%Z,  "Parameter error (the content of the parameter is wrong, for example, a number between 0 and 9 is required, but 10 or xyz is passed in, which is a parameter error)");
    (5%Z,  "Parameter length error (command length exceeds the maximum supported length)");
    (31%Z, "The current command has not ended and needs to report the status asynchronously. This value is used by the state machine to determine the use of the command and no message is returned.");
    (32%Z, "Unknown error (or unhandled error type)");
    (33%Z, "malloc error");
    (34%Z, "Failed to read buf");
    (35%Z, "Failed to write buf");
    (36%Z, "Configuration error (configuration error loaded from memory, for example, we set port -1 for OTA upgrade, and check port error when executing AT+OTA, then configuration error will be reported)");
    (37%Z, "Failed to create task");
    (38%Z, "Flash read and write failure");
    (39%Z, "Serial port configuration error, unsupported baud rate");
    (40%Z, "Serial port configuration error, unsupported data bits");
    (41%Z, "Serial port configuration error, unsupported stop bit");
    (42%Z, "Serial port configuration error, unsupported parity bit");
    (43%Z, "Serial port configuration error, unsupported flow control");
    (44%Z, "Serial port configuration failed");
    (45%Z, "Wrong username/password");
    (46%Z, "Low power mode error or unsupported low power mode");
    (47%Z, "Uninitialized configuration data error (including io mapping data)");
    (63%Z, "General error code (without other information)");
    (64%Z, "Wi-Fi not initialized or initialization failed");
    (65%Z, "Wi-Fi mode error (unable to connect to Wi-Fi in single AP mode)");
    (66%Z, "Wi-Fi connection failed");
    (67%Z, "Wi-Fi connection successful, error in obtaining IP (DHCP)");
    (68%Z, "Failed to obtain encryption method");
    (69%Z, "The specified AP was not found.");
    (70%Z, "Wi-Fi scan start failed");
    (71%Z, "Wi-Fi scan timeout");
    (72%Z, "Failed to enable AP hotspot");
    (73%Z, "Failed to obtain the Wi-Fi information of the router or the AP information that you enabled yourself");
    (74%Z, "The network card (STA/AP) is not running");
    (75%Z, "Wi-Fi country code error (unsupported Wi-Fi country code)");
    (76%Z, "The current network configuration mode is wrong.");
    (95%Z, "Wi-Fi connection unknown error");
    (96%Z,  "Failed to create socket");
    (97%Z,  "Socket connection failed");
    (98%Z,  "DNS Failure");
    (99%Z,  "The socket status is wrong (for example, TCP is not connected yet)");
    (100%Z, "Socket type error");
    (101%Z, "Socket send failed");
    (102%Z, "Socket receive failed");
    (103%Z, "Socket monitoring thread creation failed");
    (104%Z, "Socket bind error");
    (105%Z, "The current connection cannot be transparently linked (wrong socket type or number)");
    (106%Z, "PING test failed (all packets lost)");
    (107%Z, "Wi-Fi country code error (unsupported Wi-Fi country code)");
    (108%Z, "SSL Config Error");
    (109%Z, "SSL verification error (usually caused by unsupported SSL encryption type or certificate error)");
    (127%Z, "Unknown socket error")
  ].

(** [errStrings[errCode]]: a missing key reads as the zero value. *)
Definition errStrings_at (errCode : Z) : string :=
  default "" (errStrings !! errCode).

(** [getErrStr] *)
Definition getErrStr (errLine : bytes) : string :=
  let errStr := "Can't parse ERROR response" in
  let tokens := Split errLine ":" in
  if 1 <? length tokens then
    match tokens !! 1 with
    | Some tok =>
        match Atoi (str tok) with
        | Some errCode => errStrings_at errCode
        | None => errStr
        end
    | None => errStr
    end
  else errStr.

(** ** Outcomes of a call *)

(** Go [error] values the driver produces or passes on. *)
Inductive error : Type :=
| ErrNew (msg : string)        (* errors.New(msg) *)
| ErrInvalidSocketFd           (* netdev.ErrInvalidSocketFd *)
| ErrNoMoreSockets             (* netdev.ErrNoMoreSockets *)
| ErrFamilyNotSupported        (* netdev.ErrFamilyNotSupported *)
| ErrProtocolNotSupported      (* netdev.ErrProtocolNotSupported *)
| EOF                          (* io.EOF *)
| ErrWrite (msg : string).     (* an error returned by uart.Write *)

(** A call returns, panics (nil dereference, index out of range, send on or
    close of a closed channel), or waits on a channel operation that cannot
    proceed in the current state. *)
Inductive result (A : Type) : Type :=
| Ret (a : A)
| Panic (msg : string)
| Block.
Arguments Ret {A} a.
Arguments Panic {A} msg.
Arguments Block {A}.

#[global] Instance result_ret : MRet result := fun A a => Ret a.
#[global] Instance result_bind : MBind result := fun A B k r =>
  match r with
  | Ret a => k a
  | Panic m => Panic m
  | Block => Block
  end.

(** What the reader sends on the unbuffered channels [d.ok], [d.txReady] and
    [d.err]. *)
Inductive signal : Type :=
| SigOk
| SigTxReady
| SigErr (e : error).

(** Observable effects of the reader, in program order. *)
Inductive event : Type :=
| Sent (sg : signal)              (* a send on d.ok, d.txReady or d.err *)
| Queued (fd : nat) (data : bytes) (* a send on the rx channel of slot fd *)
| Printed (msg : string).         (* println *)

(** ** Channels of received chunks: [chan []byte] with capacity 10 *)

Record chan : Type := { queue : list bytes; closed : bool }.

Definition rxCap : nat := 10.

(** [make(chan []byte, 10)] *)
Definition make_chan : chan := {| queue := []; closed := false |}.

(** [c <- v] *)
Definition chan_send (c : chan) (v : bytes) : result chan :=
  if closed c then Panic "send on closed channel"
  else if length (queue c) <? rxCap
       then Ret {| queue := queue c ++ [v]; closed := false |}
       else Block.

(** [v, ok := <-c]: buffered values are received also after [close]. *)
Definition chan_recv (c : chan) : result (option bytes * chan) :=
  match queue c with
  | v :: q => Ret (Some v, {| queue := q; closed := closed c |})
  | [] => if closed c then Ret (None, c) else Block
  end.

(** [close(c)] *)
Definition chan_close (c : chan) : result chan :=
  if closed c then Panic "close of closed channel"
  else Ret {| queue := queue c; closed := true |}.

(** ** Data model *)

(** [netip.AddrPort], kept as its printed address and its port. *)
Record AddrPort : Type := { addr : string; port : Z }.

Record socket : Type := {
  protocol : Z;
  id : string;
  rx : chan;
  remainder : bytes;
  laddr : option AddrPort   (* None: the zero value *)
}.

(** The fields of [device] the parser and the socket table use.  The
    configuration, the addresses and the mutexes are left out; the signal
    channels appear as [event]s, the transport as the [world] below. *)
Record device : Type := {
  buf : bytes;                     (* [1500]byte *)
  pos : nat;
  last : bytes;
  sockets : list (option socket)   (* [8]*socket; None is nil *)
}.

Definition bufLen : nat := 1500.
Definition nSockets : nat := 8.

(** [NewDevice] *)
Definition NewDevice : device :=
  {| buf := replicate bufLen "000"%char; pos := 0; last := [];
     sockets := replicate nSockets None |}.

Definition set_pos (d : device) (p : nat) : device :=
  {| buf := buf d; pos := p; last := last d; sockets := sockets d |}.
Definition set_buf (d : device) (b : bytes) : device :=
  {| buf := b; pos := pos d; last := last d; sockets := sockets d |}.
Definition set_last (d : device) (l : bytes) : device :=
  {| buf := buf d; pos := pos d; last := l; sockets := sockets d |}.
Definition set_sockets (d : device) (ss : list (option socket)) : device :=
  {| buf := buf d; pos := pos d; last := last d; sockets := ss |}.

Definition set_rx (s : socket) (c : chan) : socket :=
  {| protocol := protocol s; id := id s; rx := c;
     remainder := remainder s; laddr := laddr s |}.
Definition set_remainder (s : socket) (r : bytes) : socket :=
  {| protocol := protocol s; id := id s; rx := rx s;
     remainder := r; laddr := laddr s |}.

(** A [*socket] is the index of the slot that holds it: [Socket] stores each
    new socket in one slot only.  Writing through the pointer is an update of
    that slot. *)
Definition store (d : device) (fd : nat) (s : socket) : device :=
  set_sockets d (<[fd := Some s]> (sockets d)).

(** [split] *)
Definition split (resp : bytes) (part : nat) (del : ascii) (on : string) : string :=
  let parts := Split resp del in
  match parts !! part with
  | None => "Split parts error getting " +:+ on
  | Some p => str p
  end.

(** [findSocket]: the loop reads [s.id] of every slot in turn, also of a nil
    one. *)
Fixpoint findSocket_from (ss : list (option socket)) (fd : nat) (i : string)
  : result (nat + error) :=
  match ss with
  | [] => Ret (inr (ErrNew ("Socket not found with id: " +:+ i)))
  | None :: _ => Panic "nil pointer dereference"
  | Some s :: ss' =>
      if bool_decide (id s = i) then Ret (inl fd)
      else findSocket_from ss' (S fd) i
  end.

Definition findSocket (d : device) (i : string) : result (nat + error) :=
  findSocket_from (sockets d) 0 i.

(** Go's [int] addition wraps. *)
Definition wrapInt (z : Z) : Z :=
  ((z - minInt) mod 2 ^ intSize + minInt)%Z.

(** [getSocket] *)
Definition getSocket (d : device) (sockfd : Z) : result (nat * socket + error) :=
  if (sockfd <? 0)%Z || (Z.of_nat (length (sockets d)) <? wrapInt (sockfd + 1))%Z
  then Ret (inr ErrInvalidSocketFd)
  else match sockets d !! Z.to_nat sockfd with
       | None => Panic "index out of range"
       | Some None => Ret (inr ErrInvalidSocketFd)
       | Some (Some s) => Ret (inl (Z.to_nat sockfd, s))
       end.

(** ** Parser *)

(** [handle] *)
Definition handle (d : device) (ev : bytes) : result device :=
  if HasPrefix ev (bytes_of "SocketDisconnect") then
    let i := split ev 1 "," "SocketDisconnect" in
    r ← findSocket d i;
    match r with
    | inl fd =>
        match sockets d !! fd with
        | Some (Some s) =>
            c ← chan_close (rx s);
            Ret (store d fd (set_rx s c))
        | _ => Ret d
        end
    | inr _ => Ret d
    end
  else if HasPrefix ev (bytes_of "SocketSeed,2,1") then Ret d
  else Ret d.

(** [processUART] *)
Definition processUART (d0 : device) : result (device * list event) :=
  let '(d, evs) :=
    if (pos d0 =? 1) && bool_decide (buf d0 !! 0 = Some ">"%char)
    then (set_pos d0 0, [Sent SigTxReady])
    else (d0, []) in
  let sofar := take (pos d) (buf d) in
  if negb (HasSuffix sofar CRLF) then Ret (d, evs)
  else
    let sofar := take (length sofar - 2) sofar in
    if HasPrefix sofar (bytes_of "+EVENT:SocketDown") then
      match SplitN sofar "," 4 with
      | [_; p1; p2; p3] =>
          let i := str p1 in
          match Atoi (str p2) with
          | None =>
              Ret (set_pos d 0,
                   evs ++ [Printed ("[ERROR] Error parsing length from: " +:+ str p2)])
          | Some len =>
              if negb (len =? Z.of_nat (length p3))%Z then Ret (d, evs)
              else
                r ← findSocket d i;
                match r with
                | inr (ErrNew msg) =>
                    Ret (set_pos d 0, evs ++ [Printed ("[ERROR] " +:+ msg)])
                | inr _ => Ret (set_pos d 0, evs)
                | inl fd =>
                    let d := set_pos d 0 in
                    let data := p3 in
                    match sockets d !! fd with
                    | Some (Some s) =>
                        c ← chan_send (rx s) data;
                        Ret (store d fd (set_rx s c), evs ++ [Queued fd data])
                    | _ => Ret (d, evs)
                    end
                end
          end
      | _ =>
          Ret (set_pos d 0,
               evs ++ [Printed ("[ERROR] Error parsing +EVENT:SocketDown: " +:+ str sofar)])
      end
    else if HasPrefix sofar (bytes_of "OK") then
      Ret (set_pos d 0, evs ++ [Sent SigOk])
    else if HasPrefix sofar (bytes_of "ERROR") then
      let errStr := getErrStr (last d) in
      Ret (set_pos d 0, evs ++ [Sent (SigErr (ErrNew errStr))])
    else if HasPrefix sofar (bytes_of "+EVENT:") then
      let d := set_pos d 0 in
      d' ← handle d (drop (String.length "+EVENT:") sofar);
      Ret (d', evs)
    else
      let d := set_pos d 0 in
      if 0 <? length sofar then Ret (set_last d sofar, evs) else Ret (d, evs).

(** The body of the inner loop of [serviceUART] once [Buffered() > 0] and
    [d.pos < len(d.buf)]: store the byte, advance, parse. *)
Definition readByte (d : device) (b : ascii) : result (device * list event) :=
  processUART (set_pos (set_buf d (<[pos d := b]> (buf d))) (S (pos d))).

(** The inner loop of [serviceUART] on the bytes the transport has buffered.
    It returns the device, the bytes left in the transport and the events. *)
Fixpoint serviceUART_inner (d : device) (buffered : bytes)
  : result (device * bytes * list event) :=
  match buffered with
  | [] => Ret (d, [], [])
  | b :: rest =>
      if length (buf d) <=? pos d then
        Ret (set_pos d 0, buffered, [Printed "Trying to write past buffer"])
      else
        '(d1, evs1) ← readByte d b;
        '(d2, rest', evs2) ← serviceUART_inner d1 rest;
        Ret (d2, rest', evs1 ++ evs2)
  end.

(** [n] rounds of the outer loop of [serviceUART] (inner loop, then
    [time.Sleep]), while no new byte reaches the transport. *)
Fixpoint serviceUART (n : nat) (d : device) (buffered : bytes)
  : result (device * bytes * list event) :=
  match n with
  | O => Ret (d, buffered, [])
  | S n' =>
      '(d1, rest1, evs1) ← serviceUART_inner d buffered;
      '(d2, rest2, evs2) ← serviceUART n' d1 rest1;
      Ret (d2, rest2, evs1 ++ evs2)
  end.

(** ** Transport and command correlator *)

(** The caller's side of the transport and of the signal channels.
    [writes] scripts the results of the coming calls of [uart.Write] (none
    left: success).  [offers] scripts what a [select] meets: [Some sg] when
    the reader is sending [sg] before the ticker fires, [None] when the ticker
    fires first.  [txlog] and [tickers] record what the caller did. *)
Record world : Type := {
  txlog : list bytes;            (* argument of every uart.Write, oldest first *)
  tickers : list Z;              (* milliseconds of every ticker started *)
  writes : list (option error);
  offers : list (option signal)
}.

(** [d.uart.Write(b)]: the error, if any; on success [n = len(b)]. *)
Definition uart_Write (w : world) (b : bytes) : option error * world :=
  (mjoin (head (writes w)),
   {| txlog := txlog w ++ [b]; tickers := tickers w;
      writes := tail (writes w); offers := offers w |}).

(** [t := time.NewTicker(timeout ms); select { case <-t.C: ...; case ... }]
    for a select that listens to the channels [listens] accepts.  A signal on
    a channel the select does not listen to stays with the blocked reader. *)
Definition await (listens : signal -> bool) (timeout : Z) (w : world)
  : option signal * world :=
  let log offs :=
    {| txlog := txlog w; tickers := tickers w ++ [timeout];
       writes := writes w; offers := offs |} in
  match offers w with
  | Some sg :: rest =>
      if listens sg then (Some sg, log rest) else (None, log (offers w))
  | None :: rest => (None, log rest)
  | [] => (None, log [])
  end.

Definition listens_ok (sg : signal) : bool :=
  match sg with SigOk | SigErr _ => true | SigTxReady => false end.
Definition listens_txReady (sg : signal) : bool :=
  match sg with SigTxReady | SigErr _ => true | SigOk => false end.

(** The three cases of the selects of [execute] and [Send]. *)
Definition outcome_of (got : option signal) : option error :=
  match got with
  | Some (SigErr e) => Some e
  | Some _ => None
  | None => Some (ErrNew "Timed out")
  end.

(** [execute] *)
Definition execute (cmd : string) (timeout : Z) (w : world) : option error * world :=
  let '(err, w) := uart_Write w (bytes_of cmd ++ CRLF) in
  match err with
  | Some e => (Some e, w)
  | None =>
      let '(got, w) := await listens_ok timeout w in
      (outcome_of got, w)
  end.

(** [send] *)
Definition send (cmd : string) (timeout : Z) (w : world) : option error * world :=
  let '(err, w) := uart_Write w (bytes_of cmd ++ CRLF) in
  match err with
  | Some e => (Some e, w)
  | None =>
      let '(got, w) := await listens_txReady timeout w in
      (outcome_of got, w)
  end.

(** ** Socket table *)

(** The constants of package [netdev] the driver compares with; their
    declarations are not part of the driver. *)
Record netdev : Type := {
  AF_INET : Z;
  SOCK_STREAM : Z;
  SOCK_DGRAM : Z;
  IPPROTO_TCP : Z;
  IPPROTO_UDP : Z;
  IPPROTO_TLS : Z
}.

(** The loop of [Socket]: the first nil slot from [fd] on. *)
Fixpoint Socket_scan (ss : list (option socket)) (fd : nat) : option nat :=
  match ss with
  | [] => None
  | None :: _ => Some fd
  | Some _ :: ss' => Socket_scan ss' (S fd)
  end.

(** [Socket]: the descriptor ([-1] on failure) and the error. *)
Definition Socket (K : netdev) (d : device) (domain stype proto : Z)
  : device * (Z * option error) :=
  if negb (domain =? AF_INET K)%Z then (d, ((-1)%Z, Some ErrFamilyNotSupported))
  else if ((proto =? IPPROTO_TCP K)%Z && (stype =? SOCK_STREAM K)%Z)
          || ((proto =? IPPROTO_TLS K)%Z && (stype =? SOCK_STREAM K)%Z)
          || ((proto =? IPPROTO_UDP K)%Z && (stype =? SOCK_DGRAM K)%Z)
  then
    match Socket_scan (sockets d) 0 with
    | Some fd =>
        (store d fd {| protocol := proto; id := ""; rx := make_chan;
                       remainder := []; laddr := None |},
         (Z.of_nat fd, None))
    | None => (d, ((-1)%Z, Some ErrNoMoreSockets))
    end
  else (d, ((-1)%Z, Some ErrProtocolNotSupported)).

(** [Recv] into a buffer of [len(buf) = cap] bytes.  The result is the bytes
    copied into [buf] (their number is the returned [n]) and the error.
    [flags] and [deadline] are not read. *)
Definition Recv (d : device) (sockfd : Z) (cap : nat) (flags deadline : Z)
  : result (device * (bytes * option error)) :=
  r ← getSocket d sockfd;
  match r with
  | inr err => Ret (d, ([], Some err))
  | inl (fd, s) =>
      if 0 <? length (remainder s) then
        let n := min cap (length (remainder s)) in
        Ret (store d fd (set_remainder s (drop n (remainder s))),
             (take n (remainder s), None))
      else
        '(got, c) ← chan_recv (rx s);
        match got with
        | None => Ret (d, ([], Some EOF))
        | Some data =>
            let n := min cap (length data) in
            let s := set_rx s c in
            let s := if n <? length data then set_remainder s (drop n data) else s in
            Ret (store d fd s, (take n data, None))
        end
  end.

(** [Close] *)
Definition Close (d : device) (w : world) (sockfd : Z)
  : result (device * world * option error) :=
  r ← getSocket d sockfd;
  match r with
  | inr err => Ret (d, w, Some err)
  | inl (fd, s) =>
      let '(err, w) :=
        if negb (bool_decide (id s = ""))
        then execute ("AT+SOCKETDEL=" +:+ id s) 1000 w
        else (None, w) in
      match err with
      | Some e => Ret (d, w, Some e)
      | None => Ret (set_sockets d (<[fd := None]> (sockets d)), w, None)
      end
  end.

(** [Send]: the returned [n] and the error. *)
Definition Send (d : device) (w : world) (sockfd : Z) (b : bytes)
  (flags deadline : Z) : result (world * (Z * option error)) :=
  r ← getSocket d sockfd;
  match r with
  | inr err => Ret (w, (0%Z, Some err))
  | inl (fd, s) =>
      let cmd := "AT+SOCKETSEND=" +:+ id s +:+ "," +:+ Itoa (length b) in
      let '(err, w) := send cmd 1000 w in
      match err with
      | Some e => Ret (w, (0%Z, Some e))
      | None =>
          let '(err, w) := uart_Write w b in
          match err with
          | Some e => Ret (w, (0%Z, Some e))
          | None =>
              let '(got, w) := await listens_ok 1000 w in
              match outcome_of got with
              | Some e => Ret (w, (0%Z, Some e))
              | None => Ret (w, (Z.of_nat (length b), None))
              end
          end
      end
  end.

(** ** The driver as a system

    The reader and the caller interleave.  Bytes reach the transport, the
    reader runs its inner loop on what is buffered, the caller calls [Recv]. *)

Inductive op : Type :=
| Arrive (bs : bytes)                               (* bytes reach the UART *)
| Service                                           (* one round of serviceUART *)
| CallRecv (sockfd : Z) (cap : nat) (flags deadline : Z).

Inductive obs : Type :=
| Ev (e : event)
| Recvd (sockfd : Z) (out : bytes) (err : option error).

Record system : Type := { dev : device; buffered : bytes }.

Definition step (o : op) (st : system) : result (system * list obs) :=
  match o with
  | Arrive bs => Ret ({| dev := dev st; buffered := buffered st ++ bs |}, [])
  | Service =>
      '(d, rest, evs) ← serviceUART_inner (dev st) (buffered st);
      Ret ({| dev := d; buffered := rest |}, map Ev evs)
  | CallRecv sockfd cap flags deadline =>
      '(d, (out, err)) ← Recv (dev st) sockfd cap flags deadline;
      Ret ({| dev := d; buffered := buffered st |}, [Recvd sockfd out err])
  end.

Fixpoint run (ops : list op) (st : system) : result (system * list obs) :=
  match ops with
  | [] => Ret (st, [])
  | o :: ops' =>
      '(st1, obs1) ← step o st;
      '(st2, obs2) ← run ops' st1;
      Ret (st2, obs1 ++ obs2)
  end.

(** Bytes of the chunks the reader queued for slot [fd]. *)
Fixpoint delivered (fd : nat) (l : list obs) : bytes :=
  match l with
  | Ev (Queued fd' data) :: l' =>
      if bool_decide (fd' = fd) then data ++ delivered fd l' else delivered fd l'
  | _ :: l' => delivered fd l'
  | [] => []
  end.

(** Bytes [Recv] returned for descriptor [sockfd]. *)
Fixpoint returned (sockfd : Z) (l : list obs) : bytes :=
  match l with
  | Recvd sockfd' out _ :: l' =>
      if bool_decide (sockfd' = sockfd) then out ++ returned sockfd l'
      else returned sockfd l'
  | _ :: l' => returned sockfd l'
  | [] => []
  end.

(** Bytes a socket holds for the caller: the remainder, then the unread
    chunks in arrival order. *)
Definition pending (s : socket) : bytes :=
  remainder s ++ concat (queue (rx s)).

(** The signals a list of reader events offers to the selects of the caller. *)
Fixpoint offers_of (evs : list event) : list (option signal) :=
  match evs with
  | Sent sg :: evs' => Some sg :: offers_of evs'
  | _ :: evs' => offers_of evs'
  | [] => []
  end.

(** A world with nothing written yet, whose writes succeed. *)
Definition world0 (offs : list (option signal)) : world :=
  {| txlog := []; tickers := []; writes := []; offers := offs |}.

(** ** Definitions used to state the properties *)

(** The socket [Socket] stores in the slot it found. *)
Definition new_socket (proto : Z) : socket :=
  {| protocol := proto; id := ""; rx := make_chan; remainder := [];
     laddr := None |}.

(** The arguments [Socket] accepts. *)
Definition valid_args (K : netdev) (domain stype proto : Z) : Prop :=
  domain = AF_INET K
  /\ ((proto = IPPROTO_TCP K /\ stype = SOCK_STREAM K)
      \/ (proto = IPPROTO_TLS K /\ stype = SOCK_STREAM K)
      \/ (proto = IPPROTO_UDP K /\ stype = SOCK_DGRAM K)).

(** [n] calls of [Socket] in a row, none closed in between. *)
Fixpoint Socket_n (K : netdev) (n : nat) (d : device) (domain stype proto : Z)
  : device * list (Z * option error) :=
  match n with
  | O => (d, [])
  | S n' =>
      let '(d1, r) := Socket K d domain stype proto in
      let '(d2, rs) := Socket_n K n' d1 domain stype proto in
      (d2, r :: rs)
  end.

(** One choice of values for the constants (those of the BSD socket
    interface, and 254 for TLS), for the concrete examples. *)
Definition netdev0 : netdev :=
  {| AF_INET := 2; SOCK_STREAM := 1; SOCK_DGRAM := 2;
     IPPROTO_TCP := 6; IPPROTO_UDP := 17; IPPROTO_TLS := 254 |}.

(** A connected TCP socket with the device's identifier "3". *)
Definition sock3 : socket :=
  {| protocol := 6; id := "3"; rx := make_chan; remainder := [];
     laddr := None |}.

(** A new device whose only socket is [s], in slot [fd]. *)
Definition dev_with (fd : nat) (s : socket) : device :=
  store NewDevice fd s.

(** The chunks a list of reader events queued, with their slots. *)
Fixpoint queued (evs : list event) : list (nat * bytes) :=
  match evs with
  | Queued fd data :: evs' => (fd, data) :: queued evs'
  | _ :: evs' => queued evs'
  | [] => []
  end.

(** What one call of the parser can do to the socket table: nothing, queue
    one chunk on an open channel, or close an open channel. *)
Inductive reader_effect (ss : list (option socket))
  : list (option socket) -> list (nat * bytes) -> Prop :=
| effect_none : reader_effect ss ss []
| effect_queue (fd : nat) (s : socket) (data : bytes) :
    ss !! fd = Some (Some s) ->
    closed (rx s) = false ->
    reader_effect ss
      (<[fd := Some (set_rx s {| queue := queue (rx s) ++ [data];
                                 closed := false |})]> ss)
      [(fd, data)]
| effect_close (fd : nat) (s : socket) :
    ss !! fd = Some (Some s) ->
    closed (rx s) = false ->
    reader_effect ss
      (<[fd := Some (set_rx s {| queue := queue (rx s); closed := true |})]> ss)
      [].

(** Bytes of the chunks in [q] that were queued for slot [fd]. *)
Fixpoint delivered_q (fd : nat) (q : list (nat * bytes)) : bytes :=
  match q with
  | (fd', data) :: q' =>
      if bool_decide (fd' = fd) then data ++ delivered_q fd q'
      else delivered_q fd q'
  | [] => []
  end.

(** How the socket of slot [fd] may differ after the observations [l]: what
    it held plus what was queued is what was returned plus what it holds; a
    closed channel stays closed, receives nothing and only loses chunks. *)
Definition slot_step (fd : nat) (s s' : socket) (l : list obs) : Prop :=
  id s' = id s
  /\ pending s ++ delivered fd l = returned (Z.of_nat fd) l ++ pending s'
  /\ (closed (rx s) = true ->
      closed (rx s') = true /\ delivered fd l = []
      /\ exists k, queue (rx s') = drop k (queue (rx s))).

(** A device whose buffer holds [l] since the last reset. *)
Definition dev_holding (l : bytes) : device :=
  set_pos (set_buf NewDevice (l ++ drop (length l) (buf NewDevice))) (length l).

(** The event of the specification's example: 8 bytes with a CR/LF inside. *)
Definition stream_ab_cdef : bytes :=
  bytes_of "+EVENT:SocketDown,3,8,ab" ++ CRLF ++ bytes_of "cdef" ++ CRLF.

(** A system whose only socket is [sock3] in slot 0, nothing received yet. *)
Definition sys0 : system := {| dev := dev_with 0 sock3; buffered := [] |}.

(** The event arrives and is parsed; the caller then reads with a buffer of
    3 bytes and with one of 100 bytes. *)
Definition ops_example : list op :=
  [Arrive stream_ab_cdef; Service; CallRecv 0 3 0 0; CallRecv 0 100 0 0].

(** [sock3] with one unread chunk. *)
Definition sock3_hi : socket :=
  set_rx sock3 {| queue := [bytes_of "hi"]; closed := false |}.

(** The device after the reader stored the bytes [bs] one by one, before any
    of them made the parser reset the position. *)
Fixpoint stored (d : device) (bs : bytes) : device :=
  match bs with
  | [] => d
  | b :: bs' =>
      stored (set_pos (set_buf d (<[pos d := b]> (buf d))) (S (pos d))) bs'
  end.

(** [+EVENT:SocketDown,<id>,<length>,] *)
Definition SocketDown_header (i lenstr : string) : bytes :=
  bytes_of "+EVENT:SocketDown"
  ++ ","%char :: bytes_of i ++ ","%char :: bytes_of lenstr ++ [","%char].

(** [+EVENT:SocketDown,<id>,<length>,<data>] followed by CR LF. *)
Definition SocketDown_frame (i lenstr : string) (data : bytes) : bytes :=
  SocketDown_header i lenstr ++ data ++ CRLF.

(** No byte of [p] is [x]. *)
Definition no_byte (x : ascii) (p : bytes) : bool :=
  forallb (fun c => negb (Ascii.eqb c x)) p.

(** A buffer content on which the parser does nothing. *)
Definition quiet (content : bytes) : Prop :=
  forall d, take (pos d) (buf d) = content -> pos d <= length (buf d) ->
            processUART d = Ret (d, []).

(** The socket table [ss'] differs from [ss] at most in the channels of its
    sockets: no slot is filled or emptied, and every socket keeps its
    protocol, id, remainder and local address. *)
Definition only_rx (ss ss' : list (option socket)) : Prop :=
  forall fd,
    match ss !! fd with
    | Some (Some s) => exists c, ss' !! fd = Some (Some (set_rx s c))
    | o => ss' !! fd = o
    end.

(** No channel of the table holds more chunks than its capacity. *)
Definition queues_bounded (ss : list (option socket)) : Prop :=
  forall fd s, ss !! fd = Some (Some s) -> length (queue (rx s)) <= rxCap.

(** [sock3] with a full channel. *)
Definition sock3_full : socket :=
  set_rx sock3 {| queue := replicate rxCap (bytes_of "x"); closed := false |}.

(** Number of bytes of [p] equal to [x]. *)
Fixpoint count_byte (x : ascii) (p : bytes) : nat :=
  match p with
  | [] => 0
  | c :: p' => if Ascii.eqb c x then S (count_byte x p') else count_byte x p'
  end.

(** [bytes.Join(parts, []byte{sep})] *)
Fixpoint Join (parts : list bytes) (sep : ascii) : bytes :=
  match parts with
  | [] => []
  | [p] => p
  | p :: ps => p ++ sep :: Join ps sep
  end.

(** * Properties *)

(** ** Sanity checks of the embedding *)

Example getErrStr_105 :
  getErrStr (bytes_of "ERROR:105") =
  "The current connection cannot be transparently linked (wrong socket type or number)".
Proof. vm_compute. reflexivity. Qed.

Example getErrStr_xyz :
  getErrStr (bytes_of "ERROR:xyz") = "Can't parse ERROR response".
Proof. vm_compute. reflexivity. Qed.

Example Split_ex : Split (bytes_of "a,b,,c") "," = [bytes_of "a"; bytes_of "b"; []; bytes_of "c"].
Proof. reflexivity. Qed.

Example SplitN_ex :
  SplitN (bytes_of "a,b,c,d,e") "," 4 =
  [bytes_of "a"; bytes_of "b"; bytes_of "c"; bytes_of "d,e"].
Proof. reflexivity. Qed.

Example Itoa_ex : Itoa 1500 = "1500" /\ Itoa 0 = "0" /\ Itoa 8 = "8".
Proof. repeat split; reflexivity. Qed.

Example Atoi_ex : Atoi "105" = Some 105%Z /\ Atoi "+7" = Some 7%Z /\ Atoi "-" = None
                  /\ Atoi "" = None /\ Atoi "4294967296" = None.
Proof. repeat split; reflexivity. Qed.

Example HasSuffix_ex : HasSuffix (bytes_of "OK" ++ CRLF) CRLF = true
                       /\ HasSuffix [LF] CRLF = false.
Proof. split; vm_compute; reflexivity. Qed.


(** ** Error table (C4, C5) *)

Lemma getErrStr_code (errLine tok : bytes) (code : Z) :
  Split errLine ":" !! 1 = Some tok ->
  Atoi (str tok) = Some code ->
  getErrStr errLine = errStrings_at code.
Proof.
  intros Htok Hcode. unfold getErrStr.
  assert (Hlen : 1 < length (Split errLine ":")) by (eapply lookup_lt_Some; eassumption).
  apply Nat.ltb_lt in Hlen. rewrite Hlen, Htok, Hcode. reflexivity.
Qed.

(** C4, as the code has it: decoding the line [ERROR:105] yields the table's
    entry for 105, which is the text about transparent linking; "Socket bind
    error" is the entry for 104. *)
Theorem getErrStr_ERROR_105 :
  getErrStr (bytes_of "ERROR:105") = errStrings_at 105
  /\ errStrings !! 105%Z =
       Some "The current connection cannot be transparently linked (wrong socket type or number)"
  /\ errStrings !! 104%Z = Some "Socket bind error".
Proof. repeat split; vm_compute; reflexivity. Qed.

(** C4 as stated fails: the decoded text of [ERROR:105] is not "Socket bind
    error". *)
Lemma getErrStr_ERROR_105_not_bind_error :
  getErrStr (bytes_of "ERROR:105") <> "Socket bind error".
Proof. vm_compute. discriminate. Qed.

(** C5, as the code has it: a code that parses and has no entry in the table
    decodes to the empty string (the zero value of the map lookup). *)
Theorem getErrStr_unmapped (errLine tok : bytes) (code : Z) :
  Split errLine ":" !! 1 = Some tok ->
  Atoi (str tok) = Some code ->
  errStrings !! code = None ->
  getErrStr errLine = "".
Proof.
  intros Htok Hcode Hnone.
  rewrite (getErrStr_code errLine tok code Htok Hcode).
  unfold errStrings_at. rewrite Hnone. reflexivity.
Qed.

Lemma getErrStr_unmapped_witness : getErrStr (bytes_of "ERROR:999") = "".
Proof.
  apply (getErrStr_unmapped (bytes_of "ERROR:999") (bytes_of "999") 999%Z);
    vm_compute; reflexivity.
Defined.

(** C5 as stated fails: code 200 parses, has no entry, and decodes to the
    empty string, not to an "unknown error" text. *)
Lemma getErrStr_ERROR_200_empty :
  Atoi "200" = Some 200%Z
  /\ errStrings !! 200%Z = None
  /\ getErrStr (bytes_of "ERROR:200") = "".
Proof. repeat split; vm_compute; reflexivity. Qed.

(** ** Socket allocation (C8) *)

Lemma Socket_scan_found (ss : list (option socket)) (k fd : nat) :
  Socket_scan ss k = Some fd <->
  exists i, fd = k + i /\ ss !! i = Some None
            /\ forall j, j < i -> ss !! j <> Some None.
Proof.
  revert k. induction ss as [|o ss IH]; intros k; simpl.
  - split; [discriminate|]. intros (i & _ & Hi & _). discriminate.
  - destruct o as [s|].
    + rewrite IH. split.
      * intros (i & -> & Hi & Hlow). exists (S i). split; [lia|]. split; [exact Hi|].
        intros [|j] Hj; simpl; [discriminate|]. apply Hlow. lia.
      * intros (i & -> & Hi & Hlow). destruct i as [|i]; [discriminate|].
        exists i. split; [lia|]. split; [exact Hi|].
        intros j Hj. apply (Hlow (S j)). lia.
    + split.
      * intros [= <-]. exists 0. split; [lia|]. split; [reflexivity|]. intros j Hj. lia.
      * intros (i & -> & Hi & Hlow). destruct i as [|i]; [f_equal; lia|].
        exfalso. apply (Hlow 0); [lia|reflexivity].
Qed.

Lemma Socket_scan_full (ss : list (option socket)) (k : nat) :
  Socket_scan ss k = None <-> forall j, ss !! j <> Some None.
Proof.
  revert k. induction ss as [|o ss IH]; intros k; simpl.
  - split; [|reflexivity]. intros _ j. rewrite lookup_nil. discriminate.
  - destruct o as [s|].
    + rewrite IH. split.
      * intros H [|j]; simpl; [discriminate|apply H].
      * intros H j. apply (H (S j)).
    + split; [discriminate|]. intros H. exfalso. apply (H 0). reflexivity.
Qed.

Lemma Socket_valid (K : netdev) (d : device) (domain stype proto : Z) :
  valid_args K domain stype proto ->
  Socket K d domain stype proto =
  match Socket_scan (sockets d) 0 with
  | Some fd => (store d fd (new_socket proto), (Z.of_nat fd, None))
  | None => (d, ((-1)%Z, Some ErrNoMoreSockets))
  end.
Proof.
  intros [-> Hpair]. unfold Socket. rewrite Z.eqb_refl. simpl.
  destruct Hpair as [[-> ->]|[[-> ->]|[-> ->]]];
    rewrite !Z.eqb_refl; rewrite ?orb_true_r; reflexivity.
Qed.

Lemma Socket_n_fresh (K : netdev) (d : device) (domain stype proto : Z) :
  valid_args K domain stype proto ->
  sockets d = replicate nSockets None ->
  Socket_n K 9 d domain stype proto
  = (set_sockets d (replicate nSockets (Some (new_socket proto))),
     [(0%Z, None); (1%Z, None); (2%Z, None); (3%Z, None); (4%Z, None);
      (5%Z, None); (6%Z, None); (7%Z, None);
      ((-1)%Z, Some ErrNoMoreSockets)]).
Proof.
  intros Hv Hss. destruct d as [b p l ss]. simpl in Hss. subst ss.
  unfold Socket_n.
  do 9 (rewrite (Socket_valid K _ _ _ _ Hv); cbn -[Socket]).
  reflexivity.
Qed.

(** C8: with valid arguments, [Socket] returns the lowest-index empty slot and
    stores a fresh socket there; when no slot is empty it fails with the "no
    more sockets" error and leaves the device unchanged; on a new device nine
    calls in a row return 0, 1, ..., 7 and then the error, with all eight
    sockets still in the table. *)
Theorem Socket_lowest_free_slot (K : netdev) (d : device) (domain stype proto : Z) :
  valid_args K domain stype proto ->
  (forall fd,
      sockets d !! fd = Some None ->
      (forall j, j < fd -> sockets d !! j <> Some None) ->
      Socket K d domain stype proto
      = (store d fd (new_socket proto), (Z.of_nat fd, None)))
  /\ ((forall j, sockets d !! j <> Some None) ->
      Socket K d domain stype proto = (d, ((-1)%Z, Some ErrNoMoreSockets)))
  /\ Socket_n K 9 NewDevice domain stype proto
     = (set_sockets NewDevice (replicate nSockets (Some (new_socket proto))),
        [(0%Z, None); (1%Z, None); (2%Z, None); (3%Z, None); (4%Z, None);
         (5%Z, None); (6%Z, None); (7%Z, None);
         ((-1)%Z, Some ErrNoMoreSockets)]).
Proof.
  intros Hv. repeat split.
  - intros fd Hfd Hlow. rewrite (Socket_valid K d _ _ _ Hv).
    assert (Hs : Socket_scan (sockets d) 0 = Some fd).
    { apply Socket_scan_found. exists fd. auto. }
    rewrite Hs. reflexivity.
  - intros Hfull. rewrite (Socket_valid K d _ _ _ Hv).
    apply (Socket_scan_full _ 0) in Hfull. rewrite Hfull. reflexivity.
  - apply Socket_n_fresh; [exact Hv|reflexivity].
Qed.

Lemma Socket_lowest_free_slot_witness :
  Socket netdev0 (dev_with 0 sock3) 2 1 6
  = (store (dev_with 0 sock3) 1 (new_socket 6), (1%Z, None)).
Proof.
  assert (Hv : valid_args netdev0 2 1 6) by (split; [reflexivity|left; split; reflexivity]).
  apply (proj1 (Socket_lowest_free_slot netdev0 (dev_with 0 sock3) 2 1 6 Hv) 1).
  - reflexivity.
  - intros j Hj. assert (j = 0) as -> by lia. discriminate.
Defined.

(** ** Close (C3) *)

Lemma execute_txlog (cmd : string) (timeout : Z) (w : world) :
  txlog (execute cmd timeout w).2 = txlog w ++ [bytes_of cmd ++ CRLF].
Proof.
  unfold execute, uart_Write, await.
  destruct (mjoin (head (writes w))); simpl; [reflexivity|].
  destruct (offers w) as [|[sg|] rest]; simpl; try reflexivity.
  destruct (listens_ok sg); reflexivity.
Qed.

Lemma getSocket_slot (d : device) (sockfd : Z) (fd : nat) (s : socket) :
  getSocket d sockfd = Ret (inl (fd, s)) ->
  sockfd = Z.of_nat fd /\ sockets d !! fd = Some (Some s).
Proof.
  unfold getSocket. intros H.
  destruct (_ || _) eqn:Hrange; [discriminate|].
  apply orb_false_iff in Hrange as [Hneg _]. apply Z.ltb_ge in Hneg.
  destruct (sockets d !! Z.to_nat sockfd) as [[s'|]|] eqn:Hl; try discriminate.
  injection H as <- <-. split; [lia|exact Hl].
Qed.

(** C3, as the code has it: for a valid descriptor, [Close] writes
    [AT+SOCKETDEL=<id>] exactly when the id is not empty and returns the
    error of that command; it sets the slot to nil when the id is empty or the
    command succeeded, and leaves the device as it was when the command
    failed or timed out. *)
Theorem Close_frees_slot_unless_delete_fails
  (d : device) (w : world) (sockfd : Z) (fd : nat) (s : socket) :
  getSocket d sockfd = Ret (inl (fd, s)) ->
  (id s = "" ->
   Close d w sockfd = Ret (set_sockets d (<[fd := None]> (sockets d)), w, None))
  /\ (id s <> "" ->
      exists err w',
        execute ("AT+SOCKETDEL=" +:+ id s) 1000 w = (err, w')
        /\ txlog w' = txlog w ++ [bytes_of ("AT+SOCKETDEL=" +:+ id s) ++ CRLF]
        /\ Close d w sockfd
           = Ret (match err with
                  | Some _ => d
                  | None => set_sockets d (<[fd := None]> (sockets d))
                  end, w', err))
  /\ <[fd := None]> (sockets d) !! fd = Some None.
Proof.
  intros Hget. pose proof (getSocket_slot _ _ _ _ Hget) as [_ Hslot].
  repeat split.
  - intros Hid. unfold Close. rewrite Hget. simpl.
    rewrite bool_decide_eq_true_2 by exact Hid. reflexivity.
  - intros Hid. destruct (execute ("AT+SOCKETDEL=" +:+ id s) 1000 w) as [err w'] eqn:He.
    exists err, w'. split; [reflexivity|]. split.
    + pose proof (execute_txlog ("AT+SOCKETDEL=" +:+ id s) 1000 w) as Hlog.
      rewrite He in Hlog. exact Hlog.
    + unfold Close. rewrite Hget. simpl.
      rewrite bool_decide_eq_false_2 by exact Hid. simpl. rewrite He.
      destruct err; reflexivity.
  - apply list_lookup_insert_eq. eapply lookup_lt_Some. exact Hslot.
Qed.

Lemma Close_frees_slot_unless_delete_fails_witness :
  Close (dev_with 0 (new_socket 6)) (world0 []) 0
  = Ret (set_sockets (dev_with 0 (new_socket 6))
           (<[0 := None]> (sockets (dev_with 0 (new_socket 6)))),
         world0 [], None).
Proof.
  apply (proj1 (Close_frees_slot_unless_delete_fails
                  (dev_with 0 (new_socket 6)) (world0 []) 0 0 (new_socket 6)
                  eq_refl)).
  reflexivity.
Defined.

(** C3 as stated fails: when the delete command is answered by an error, or
    by nothing before the ticker fires, [Close] returns the error and the
    socket stays in slot 0, so the next [Socket] returns descriptor 1. *)
Lemma Close_failed_delete_keeps_slot :
  (exists w',
      Close (dev_with 0 sock3) (world0 [Some (SigErr (ErrNew "Socket send failed"))]) 0
      = Ret (dev_with 0 sock3, w', Some (ErrNew "Socket send failed")))
  /\ (exists w',
      Close (dev_with 0 sock3) (world0 []) 0
      = Ret (dev_with 0 sock3, w', Some (ErrNew "Timed out")))
  /\ sockets (dev_with 0 sock3) !! 0 = Some (Some sock3)
  /\ (Socket netdev0 (dev_with 0 sock3) 2 1 6).2 = (1%Z, None).
Proof. repeat split; try (eexists; vm_compute; reflexivity); vm_compute; reflexivity. Qed.

(** ** Send (C10) *)



(** ** Facts about channels, lookups and slices *)

Lemma chan_send_Ret (c c' : chan) (v : bytes) :
  chan_send c v = Ret c' ->
  closed c = false /\ c' = {| queue := queue c ++ [v]; closed := false |}.
Proof.
  unfold chan_send. destruct (closed c); [discriminate|].
  destruct (_ <? _); [|discriminate]. intros [= <-]. auto.
Qed.

Lemma chan_close_Ret (c c' : chan) :
  chan_close c = Ret c' ->
  closed c = false /\ c' = {| queue := queue c; closed := true |}.
Proof.
  unfold chan_close. destruct (closed c); [discriminate|]. intros [= <-]. auto.
Qed.

Lemma findSocket_from_found (ss : list (option socket)) (k fd : nat) (i : string) :
  findSocket_from ss k i = Ret (inl fd) ->
  exists j s, fd = k + j /\ ss !! j = Some (Some s) /\ id s = i.
Proof.
  revert k. induction ss as [|[s|] ss IH]; intros k; simpl; try discriminate.
  destruct (bool_decide (id s = i)) eqn:Hid.
  - intros [= <-]. apply bool_decide_eq_true in Hid.
    exists 0, s. split; [lia|]. auto.
  - intros H. apply IH in H as (j & s' & -> & Hj & Hs').
    exists (S j), s'. split; [lia|]. auto.
Qed.

Lemma findSocket_found (d : device) (fd : nat) (i : string) :
  findSocket d i = Ret (inl fd) ->
  exists s, sockets d !! fd = Some (Some s) /\ id s = i.
Proof.
  intros H. apply findSocket_from_found in H as (j & s & -> & Hj & Hs).
  exists s. auto.
Qed.

Lemma HasSuffix_CRLF (l : bytes) : HasSuffix (l ++ CRLF) CRLF = true.
Proof.
  unfold HasSuffix. rewrite length_app. simpl length.
  replace (2 <=? length l + 2) with true by (symmetry; apply Nat.leb_le; lia).
  replace (length l + 2 - 2) with (length l) by lia.
  rewrite drop_app_length. reflexivity.
Qed.

Lemma take_strip_CRLF (l : bytes) : take (length (l ++ CRLF) - 2) (l ++ CRLF) = l.
Proof.
  rewrite length_app. simpl length.
  replace (length l + 2 - 2) with (length l) by lia.
  apply take_app_length.
Qed.

Lemma HasPrefix_head (s p : bytes) (c : ascii) :
  HasPrefix s (c :: p) = true -> exists s', s = c :: s' /\ HasPrefix s' p = true.
Proof.
  destruct s as [|c' s']; simpl; [discriminate|].
  intros H. apply andb_true_iff in H as [Hc Hp].
  apply Ascii.eqb_eq in Hc. subst c'. eauto.
Qed.

Lemma HasPrefix_other_head (s p q : bytes) (c c' : ascii) :
  c <> c' -> HasPrefix s (c :: p) = true -> HasPrefix s (c' :: q) = false.
Proof.
  intros Hne H. apply HasPrefix_head in H as (s' & -> & _). simpl.
  destruct (Ascii.eqb_spec c c'); [contradiction|reflexivity].
Qed.

(** ** The parser and the socket table *)

Lemma handle_effect (d d' : device) (ev : bytes) :
  handle d ev = Ret d' ->
  reader_effect (sockets d) (sockets d') []
  /\ buf d' = buf d /\ pos d' = pos d /\ last d' = last d.
Proof.
  unfold handle. intros H.
  destruct (HasPrefix ev (bytes_of "SocketDisconnect")).
  - destruct (findSocket d _) as [[fd|e]| |] eqn:Hf; simpl in H; try discriminate.
    + apply findSocket_found in Hf as (s & Hs & _). rewrite Hs in H.
      destruct (chan_close (rx s)) as [c| |] eqn:Hc; simpl in H; try discriminate.
      apply chan_close_Ret in Hc as [Hopen ->]. injection H as <-.
      simpl. split; [|auto]. apply effect_close; assumption.
    + injection H as <-. split; [constructor|auto].
  - destruct (HasPrefix ev _); injection H as <-; (split; [constructor|auto]).
Qed.

Lemma processUART_effect (d d' : device) (evs : list event) :
  processUART d = Ret (d', evs) ->
  reader_effect (sockets d) (sockets d') (queued evs) /\ buf d' = buf d.
Proof.
  unfold processUART. intros H.
  destruct (_ && _); simpl in H.
  { injection H as <- <-. split; [constructor|reflexivity]. }
  destruct (HasSuffix _ _); simpl in H.
  2: { injection H as <- <-. split; [constructor|reflexivity]. }
  destruct (HasPrefix _ (bytes_of "+EVENT:SocketDown")).
  { destruct (SplitN _ _ _) as [|p0 [|p1 [|p2 [|p3 [|p4 ps]]]]];
      try (injection H as <- <-; split; [constructor|reflexivity]).
    destruct (Atoi (str p2)) as [len|];
      [|injection H as <- <-; split; [constructor|reflexivity]].
    destruct (negb _); [injection H as <- <-; split; [constructor|reflexivity]|].
    destruct (findSocket d (str p1)) as [[fd|e]| |] eqn:Hf; simpl in H; try discriminate.
    - apply findSocket_found in Hf as (s & Hs & _). rewrite Hs in H.
      destruct (chan_send (rx s) p3) as [c| |] eqn:Hc; simpl in H; try discriminate.
      apply chan_send_Ret in Hc as [Hopen ->]. injection H as <- <-.
      simpl. split; [|reflexivity]. apply effect_queue; assumption.
    - destruct e; injection H as <- <-; (split; [constructor|reflexivity]). }
  destruct (HasPrefix _ (bytes_of "OK")).
  { injection H as <- <-. split; [constructor|reflexivity]. }
  destruct (HasPrefix _ (bytes_of "ERROR")).
  { injection H as <- <-. split; [constructor|reflexivity]. }
  destruct (HasPrefix _ (bytes_of "+EVENT:")).
  { destruct (handle _ _) as [d1| |] eqn:Hh; simpl in H; try discriminate.
    injection H as <- <-. apply handle_effect in Hh as (He & Hb & _).
    simpl in *. auto. }
  destruct (0 <? _); injection H as <- <-; (split; [constructor|reflexivity]).
Qed.

Lemma processUART_last (d d' : device) (evs : list event) :
  processUART d = Ret (d', evs) ->
  last d' <> last d ->
  let sofar := take (length (take (pos d) (buf d)) - 2) (take (pos d) (buf d)) in
  HasPrefix sofar (bytes_of "+EVENT:SocketDown") = false
  /\ HasPrefix sofar (bytes_of "OK") = false
  /\ HasPrefix sofar (bytes_of "ERROR") = false
  /\ HasPrefix sofar (bytes_of "+EVENT:") = false
  /\ last d' = sofar.
Proof.
  unfold processUART. intros H Hne.
  destruct (_ && _); simpl in H.
  { injection H as <- <-. contradiction Hne; reflexivity. }
  destruct (HasSuffix _ _); simpl in H.
  2: { injection H as <- <-. contradiction Hne; reflexivity. }
  simpl. destruct (HasPrefix _ (bytes_of "+EVENT:SocketDown")).
  { exfalso. apply Hne.
    destruct (SplitN _ _ _) as [|p0 [|p1 [|p2 [|p3 [|p4 ps]]]]];
      try (injection H as <- <-; reflexivity).
    destruct (Atoi (str p2)) as [len|]; [|injection H as <- <-; reflexivity].
    destruct (negb _); [injection H as <- <-; reflexivity|].
    destruct (findSocket d (str p1)) as [[fd|e]| |] eqn:Hf; simpl in H; try discriminate.
    - destruct (sockets d !! fd) as [[s|]|]; try (injection H as <- <-; reflexivity).
      destruct (chan_send (rx s) p3) as [c| |]; simpl in H; try discriminate.
      injection H as <- <-. reflexivity.
    - destruct e; injection H as <- <-; reflexivity. }
  destruct (HasPrefix _ (bytes_of "OK")).
  { injection H as <- <-. contradiction Hne; reflexivity. }
  destruct (HasPrefix _ (bytes_of "ERROR")).
  { injection H as <- <-. contradiction Hne; reflexivity. }
  destruct (HasPrefix _ (bytes_of "+EVENT:")).
  { destruct (handle _ _) as [d1| |] eqn:Hh; simpl in H; try discriminate.
    injection H as <- <-. apply handle_effect in Hh as (_ & _ & _ & Hl).
    contradiction Hne. }
  destruct (0 <? _); injection H as <- <-.
  - simpl. auto.
  - contradiction Hne; reflexivity.
Qed.

Lemma line_pos (d : device) (line : bytes) :
  take (pos d) (buf d) = line ++ CRLF -> (pos d =? 1) = false.
Proof.
  intros H. apply (f_equal length) in H.
  rewrite length_take, length_app in H. simpl in H.
  apply Nat.eqb_neq. lia.
Qed.

(** ** Terminal markers (C9) *)

(** C9: a completed line that begins with "OK" signals success, one that
    begins with "ERROR" signals failure, and in both cases [d.last] keeps its
    value (only [d.pos] changes); [d.last] changes only when the line has
    none of the prefixes "+EVENT:", "OK", "ERROR", and then it becomes the
    line. *)
Theorem terminal_markers_by_prefix (d : device) (line : bytes) :
  take (pos d) (buf d) = line ++ CRLF ->
  (HasPrefix line (bytes_of "OK") = true ->
   processUART d = Ret (set_pos d 0, [Sent SigOk])
   /\ last (set_pos d 0) = last d)
  /\ (HasPrefix line (bytes_of "ERROR") = true ->
      processUART d
      = Ret (set_pos d 0, [Sent (SigErr (ErrNew (getErrStr (last d))))])
      /\ last (set_pos d 0) = last d)
  /\ (forall d' evs,
        processUART d = Ret (d', evs) ->
        last d' <> last d ->
        HasPrefix line (bytes_of "+EVENT:") = false
        /\ HasPrefix line (bytes_of "OK") = false
        /\ HasPrefix line (bytes_of "ERROR") = false
        /\ last d' = line).
Proof.
  intros Hline. pose proof (line_pos d line Hline) as Hpos.
  split; [|split].
  - intros Hok. split; [|reflexivity].
    unfold processUART. rewrite Hpos. cbn [andb].
    rewrite Hline, HasSuffix_CRLF, take_strip_CRLF. cbn [negb].
    assert (Hsd : HasPrefix line (bytes_of "+EVENT:SocketDown") = false)
      by exact (HasPrefix_other_head line (bytes_of "K") (bytes_of "EVENT:SocketDown")
                  "O" "+" ltac:(discriminate) Hok).
    rewrite Hsd, Hok. reflexivity.
  - intros Herr. split; [|reflexivity].
    unfold processUART. rewrite Hpos. cbn [andb].
    rewrite Hline, HasSuffix_CRLF, take_strip_CRLF. cbn [negb].
    assert (Hsd : HasPrefix line (bytes_of "+EVENT:SocketDown") = false)
      by exact (HasPrefix_other_head line (bytes_of "RROR") (bytes_of "EVENT:SocketDown")
                  "E" "+" ltac:(discriminate) Herr).
    assert (Hok : HasPrefix line (bytes_of "OK") = false)
      by exact (HasPrefix_other_head line (bytes_of "RROR") (bytes_of "K")
                  "E" "O" ltac:(discriminate) Herr).
    rewrite Hsd, Hok, Herr. reflexivity.
  - intros d' evs H Hne.
    pose proof (processUART_last d d' evs H Hne) as Hlast. simpl in Hlast.
    rewrite Hline, take_strip_CRLF in Hlast. tauto.
Qed.

Lemma terminal_markers_by_prefix_witness :
  processUART (dev_holding (bytes_of "OKAY" ++ CRLF))
  = Ret (set_pos (dev_holding (bytes_of "OKAY" ++ CRLF)) 0, [Sent SigOk])
  /\ last (set_pos (dev_holding (bytes_of "OKAY" ++ CRLF)) 0)
     = last (dev_holding (bytes_of "OKAY" ++ CRLF)).
Proof.
  apply (proj1 (terminal_markers_by_prefix
                  (dev_holding (bytes_of "OKAY" ++ CRLF)) (bytes_of "OKAY")
                  ltac:(vm_compute; reflexivity))).
  vm_compute. reflexivity.
Defined.

(** ** Buffer overflow (C6) *)

(** C6, as the code has it: when the buffer is full and a further byte is
    waiting, the round of the reader ends with the position reset to zero, the
    byte left in the transport and a line printed on the console; no signal
    is sent, so a command whose select meets nothing else ends by its own
    ticker. *)
Theorem overflow_resets_without_signal (d : device) (b : ascii) (rest : bytes) :
  length (buf d) <= pos d ->
  serviceUART_inner d (b :: rest)
  = Ret (set_pos d 0, b :: rest, [Printed "Trying to write past buffer"])
  /\ offers_of [Printed "Trying to write past buffer"] = []
  /\ forall cmd timeout,
      (execute cmd timeout
         (world0 (offers_of [Printed "Trying to write past buffer"]))).1
      = Some (ErrNew "Timed out")
      /\ (send cmd timeout
            (world0 (offers_of [Printed "Trying to write past buffer"]))).1
         = Some (ErrNew "Timed out").
Proof.
  intros Hfull. split; [|split].
  - simpl. apply Nat.leb_le in Hfull. rewrite Hfull. reflexivity.
  - reflexivity.
  - intros cmd timeout. split; reflexivity.
Qed.

Lemma overflow_resets_without_signal_witness :
  serviceUART_inner (set_pos NewDevice 1500) (bytes_of "OK" ++ CRLF)
  = Ret (NewDevice, bytes_of "OK" ++ CRLF, [Printed "Trying to write past buffer"]).
Proof.
  apply (proj1 (overflow_resets_without_signal (set_pos NewDevice 1500) "O" (bytes_of "K" ++ CRLF)
                  ltac:(vm_compute; lia))).
Defined.

(** C6 as stated fails: 1500 bytes without a terminator fill the buffer, the
    next byte triggers the reset, and the line "OK" that follows is parsed
    as usual; the only signal sent is the success signal, and the waiting
    [execute] returns no error. *)
Lemma overflow_then_OK_reports_success :
  exists d',
    serviceUART 2 NewDevice (replicate 1500 "a"%char ++ bytes_of "OK" ++ CRLF)
    = Ret (d', [], [Printed "Trying to write past buffer"; Sent SigOk])
    /\ pos d' = 0
    /\ (execute "AT" 1000
          (world0 (offers_of [Printed "Trying to write past buffer"; Sent SigOk]))).1
       = None.
Proof. eexists. split; [vm_compute; reflexivity|]. split; reflexivity. Qed.

(** ** One slot along a run of the system *)

Lemma delivered_app (fd : nat) (l1 l2 : list obs) :
  delivered fd (l1 ++ l2) = delivered fd l1 ++ delivered fd l2.
Proof.
  induction l1 as [|o l1 IH]; simpl; [reflexivity|].
  destruct o as [[sg|fd' data|msg]|sockfd out err]; try exact IH.
  destruct (bool_decide (fd' = fd)); [|exact IH].
  rewrite IH. apply app_assoc.
Qed.

Lemma returned_app (sockfd : Z) (l1 l2 : list obs) :
  returned sockfd (l1 ++ l2) = returned sockfd l1 ++ returned sockfd l2.
Proof.
  induction l1 as [|o l1 IH]; simpl; [reflexivity|].
  destruct o as [e|sockfd' out err]; [exact IH|].
  destruct (bool_decide (sockfd' = sockfd)); [|exact IH].
  rewrite IH. apply app_assoc.
Qed.

Lemma delivered_Ev (fd : nat) (evs : list event) :
  delivered fd (map Ev evs) = delivered_q fd (queued evs).
Proof.
  induction evs as [|[sg|fd' data|msg] evs IH]; simpl; try exact IH; [reflexivity|].
  rewrite IH. reflexivity.
Qed.

Lemma returned_Ev (sockfd : Z) (evs : list event) :
  returned sockfd (map Ev evs) = [].
Proof. induction evs as [|e evs IH]; simpl; [reflexivity|exact IH]. Qed.

Lemma slot_step_refl (fd : nat) (s : socket) : slot_step fd s s [].
Proof.
  split; [reflexivity|]. split; [simpl; apply app_nil_r|].
  intros Hc. split; [exact Hc|]. split; [reflexivity|]. exists 0. reflexivity.
Qed.

Lemma slot_step_trans (fd : nat) (s s1 s2 : socket) (l1 l2 : list obs) :
  slot_step fd s s1 l1 -> slot_step fd s1 s2 l2 -> slot_step fd s s2 (l1 ++ l2).
Proof.
  intros (Hid1 & Hp1 & Hc1) (Hid2 & Hp2 & Hc2). split; [congruence|]. split.
  - rewrite delivered_app, returned_app.
    rewrite app_assoc, Hp1, <- app_assoc, Hp2. apply app_assoc.
  - intros Hc. destruct (Hc1 Hc) as (Hc' & Hd1 & k1 & Hq1).
    destruct (Hc2 Hc') as (Hc'' & Hd2 & k2 & Hq2).
    split; [exact Hc''|]. split.
    + rewrite delivered_app, Hd1, Hd2. reflexivity.
    + exists (k1 + k2). rewrite Hq2, Hq1. apply drop_drop.
Qed.

Lemma reader_effect_slot (ss ss' : list (option socket)) (evs : list event)
  (fd : nat) (s : socket) :
  reader_effect ss ss' (queued evs) ->
  ss !! fd = Some (Some s) ->
  exists s', ss' !! fd = Some (Some s') /\ slot_step fd s s' (map Ev evs).
Proof.
  intros He Hs. unfold slot_step. rewrite delivered_Ev, returned_Ev.
  inversion He as [Hss Hq|fd0 s0 data Hs0 Hopen Hss Hq|fd0 s0 Hs0 Hopen Hss Hq];
    subst; simpl.
  - exists s. split; [exact Hs|]. split; [reflexivity|].
    split; [apply app_nil_r|]. intros Hc. split; [exact Hc|].
    split; [reflexivity|]. exists 0. reflexivity.
  - destruct (decide (fd0 = fd)) as [->|Hne].
    + rewrite Hs0 in Hs. injection Hs as ->.
      eexists. split.
      { apply list_lookup_insert_eq. eapply lookup_lt_Some. exact Hs0. }
      split; [reflexivity|]. split.
      * rewrite bool_decide_eq_true_2 by reflexivity.
        unfold pending. simpl. rewrite concat_app. simpl.
        rewrite !app_nil_r. symmetry. apply app_assoc.
      * intros Hc. congruence.
    + exists s. split; [rewrite list_lookup_insert_ne by exact Hne; exact Hs|].
      rewrite bool_decide_eq_false_2 by exact Hne.
      split; [reflexivity|]. split; [apply app_nil_r|].
      intros Hc. split; [exact Hc|]. split; [reflexivity|]. exists 0. reflexivity.
  - destruct (decide (fd0 = fd)) as [->|Hne].
    + rewrite Hs0 in Hs. injection Hs as ->.
      eexists. split.
      { apply list_lookup_insert_eq. eapply lookup_lt_Some. exact Hs0. }
      split; [reflexivity|]. split; [apply app_nil_r|].
      intros Hc. congruence.
    + exists s. split; [rewrite list_lookup_insert_ne by exact Hne; exact Hs|].
      split; [reflexivity|]. split; [apply app_nil_r|].
      intros Hc. split; [exact Hc|]. split; [reflexivity|]. exists 0. reflexivity.
Qed.

Lemma serviceUART_inner_slot (bs : bytes) (d d' : device) (rest : bytes)
  (evs : list event) (fd : nat) (s : socket) :
  serviceUART_inner d bs = Ret (d', rest, evs) ->
  sockets d !! fd = Some (Some s) ->
  exists s', sockets d' !! fd = Some (Some s') /\ slot_step fd s s' (map Ev evs).
Proof.
  revert d d' rest evs s. induction bs as [|b bs IH]; intros d d' rest evs s H Hs.
  - injection H as <- <- <-. exists s. split; [exact Hs|apply slot_step_refl].
  - simpl in H. destruct (length (buf d) <=? pos d).
    + injection H as <- <- <-. exists s. split; [exact Hs|].
      split; [reflexivity|]. split; [apply app_nil_r|].
      intros Hc. split; [exact Hc|]. split; [reflexivity|]. exists 0. reflexivity.
    + destruct (readByte d b) as [[d1 evs1]| |] eqn:H1; simpl in H; try discriminate.
      destruct (serviceUART_inner d1 bs) as [[[d2 rest2] evs2]| |] eqn:H2;
        simpl in H; try discriminate.
      injection H as <- <- <-.
      apply processUART_effect in H1 as [He _]. simpl in He.
      destruct (reader_effect_slot _ _ evs1 fd s He Hs) as (s1 & Hs1 & Hstep1).
      destruct (IH _ _ _ _ _ H2 Hs1) as (s2 & Hs2 & Hstep2).
      exists s2. split; [exact Hs2|]. rewrite map_app.
      eapply slot_step_trans; eassumption.
Qed.

Lemma chan_recv_Ret (c c' : chan) (got : option bytes) :
  chan_recv c = Ret (got, c') ->
  match got with
  | Some v => queue c = v :: queue c' /\ closed c' = closed c
  | None => queue c = [] /\ closed c = true /\ c' = c
  end.
Proof.
  unfold chan_recv. destruct (queue c) as [|v q] eqn:Hq.
  - destruct (closed c) eqn:Hc; [|discriminate]. intros [= <- <-]. auto.
  - intros [= <- <-]. simpl. auto.
Qed.

Lemma Recv_slot (d d' : device) (sockfd : Z) (cap : nat) (fl dl : Z)
  (out : bytes) (err : option error) (fd : nat) (s : socket) :
  Recv d sockfd cap fl dl = Ret (d', (out, err)) ->
  sockets d !! fd = Some (Some s) ->
  exists s', sockets d' !! fd = Some (Some s')
             /\ slot_step fd s s' [Recvd sockfd out err].
Proof.
  unfold Recv. intros H Hs.
  assert (Hsame : forall o e, o = [] ->
            slot_step fd s s [Recvd sockfd o e]).
  { intros o e ->. split; [reflexivity|]. split.
    - simpl. destruct (bool_decide _); simpl; rewrite app_nil_r; reflexivity.
    - intros Hc. split; [exact Hc|]. split; [reflexivity|]. exists 0. reflexivity. }
  destruct (getSocket d sockfd) as [[[fd0 s0]|e]| |] eqn:Hg; simpl in H;
    try discriminate.
  2: { injection H as <- <- <-. exists s. split; [exact Hs|]. apply Hsame. reflexivity. }
  apply getSocket_slot in Hg as [-> Hs0].
  assert (Hother : fd0 <> fd -> forall s1 o e,
            <[fd0 := Some s1]> (sockets d) !! fd = Some (Some s)
            /\ slot_step fd s s [Recvd (Z.of_nat fd0) o e]).
  { intros Hne s1 o e. split; [rewrite list_lookup_insert_ne by exact Hne; exact Hs|].
    split; [reflexivity|]. split.
    - simpl. rewrite bool_decide_eq_false_2 by lia. simpl. apply app_nil_r.
    - intros Hc. split; [exact Hc|]. split; [reflexivity|]. exists 0. reflexivity. }
  assert (Hlt : fd0 < length (sockets d)) by (eapply lookup_lt_Some; exact Hs0).
  destruct (0 <? length (remainder s0)) eqn:Hrem.
  - injection H as <- <- <-. simpl.
    destruct (decide (fd0 = fd)) as [->|Hne]; [|exists s; apply Hother; exact Hne].
    rewrite Hs0 in Hs. injection Hs as ->.
    eexists. split; [apply list_lookup_insert_eq; exact Hlt|].
    split; [reflexivity|]. split.
    + simpl. rewrite bool_decide_eq_true_2 by reflexivity.
      unfold pending. simpl. rewrite !app_nil_r.
      rewrite (app_assoc (take _ _)), take_drop. reflexivity.
    + intros Hc. split; [exact Hc|]. split; [reflexivity|]. exists 0. reflexivity.
  - apply Nat.ltb_ge in Hrem.
    assert (Hnil : remainder s0 = []) by (destruct (remainder s0); [reflexivity|simpl in Hrem; lia]).
    destruct (chan_recv (rx s0)) as [[got c]| |] eqn:Hr; simpl in H; try discriminate.
    apply chan_recv_Ret in Hr. destruct got as [data|].
    + destruct Hr as [Hq Hcl]. injection H as <- <- <-. simpl.
      destruct (decide (fd0 = fd)) as [->|Hne]; [|exists s; apply Hother; exact Hne].
      rewrite Hs0 in Hs. injection Hs as ->.
      eexists. split; [apply list_lookup_insert_eq; exact Hlt|].
      split; [destruct (_ <? _); reflexivity|]. split.
      * simpl. rewrite bool_decide_eq_true_2 by reflexivity.
        unfold pending. rewrite Hnil, Hq. simpl. rewrite app_nil_r.
        destruct (min cap (length data) <? length data) eqn:Hn; simpl.
        -- rewrite app_nil_r, (app_assoc (take _ _)), take_drop. reflexivity.
        -- apply Nat.ltb_ge in Hn. rewrite Hnil. simpl.
           rewrite app_nil_r, take_ge by exact Hn. reflexivity.
      * intros Hc. split; [destruct (_ <? _); simpl; congruence|].
        split; [reflexivity|]. exists 1. rewrite Hq.
        destruct (_ <? _); reflexivity.
    + destruct Hr as (Hq & Hcl & ->). injection H as <- <- <-.
      exists s. split; [exact Hs|]. apply Hsame. reflexivity.
Qed.

Lemma step_slot (o : op) (st st' : system) (l : list obs) (fd : nat) (s : socket) :
  step o st = Ret (st', l) ->
  sockets (dev st) !! fd = Some (Some s) ->
  exists s', sockets (dev st') !! fd = Some (Some s') /\ slot_step fd s s' l.
Proof.
  intros H Hs. destruct o as [bs| |sockfd cap fl dl]; simpl in H.
  - injection H as <- <-. exists s. split; [exact Hs|apply slot_step_refl].
  - destruct (serviceUART_inner _ _) as [[[d rest] evs]| |] eqn:Hi; simpl in H;
      try discriminate.
    injection H as <- <-. simpl. eapply serviceUART_inner_slot; eassumption.
  - destruct (Recv _ _ _ _ _) as [[d [out err]]| |] eqn:Hr; simpl in H;
      try discriminate.
    injection H as <- <-. simpl. eapply Recv_slot; eassumption.
Qed.

Lemma run_slot (ops : list op) (st st' : system) (l : list obs) (fd : nat) (s : socket) :
  run ops st = Ret (st', l) ->
  sockets (dev st) !! fd = Some (Some s) ->
  exists s', sockets (dev st') !! fd = Some (Some s') /\ slot_step fd s s' l.
Proof.
  revert st st' l s. induction ops as [|o ops IH]; intros st st' l s H Hs; simpl in H.
  - injection H as <- <-. exists s. split; [exact Hs|apply slot_step_refl].
  - destruct (step o st) as [[st1 l1]| |] eqn:H1; simpl in H; try discriminate.
    destruct (run ops st1) as [[st2 l2]| |] eqn:H2; simpl in H; try discriminate.
    injection H as <- <-.
    destruct (step_slot _ _ _ _ _ _ H1 Hs) as (s1 & Hs1 & Hstep1).
    destruct (IH _ _ _ _ H2 Hs1) as (s2 & Hs2 & Hstep2).
    exists s2. split; [exact Hs2|]. eapply slot_step_trans; eassumption.
Qed.

Lemma reader_effect_length (ss ss' : list (option socket)) (q : list (nat * bytes)) :
  reader_effect ss ss' q -> length ss' = length ss.
Proof. intros []; [reflexivity|apply length_insert..]. Qed.

Lemma serviceUART_inner_length (bs : bytes) (d d' : device) (rest : bytes)
  (evs : list event) :
  serviceUART_inner d bs = Ret (d', rest, evs) ->
  length (sockets d') = length (sockets d).
Proof.
  revert d d' rest evs. induction bs as [|b bs IH]; intros d d' rest evs H.
  - injection H as <- <- <-. reflexivity.
  - simpl in H. destruct (length (buf d) <=? pos d).
    + injection H as <- <- <-. reflexivity.
    + destruct (readByte d b) as [[d1 evs1]| |] eqn:H1; simpl in H; try discriminate.
      destruct (serviceUART_inner d1 bs) as [[[d2 rest2] evs2]| |] eqn:H2;
        simpl in H; try discriminate.
      injection H as <- <- <-.
      apply processUART_effect in H1 as [He _]. simpl in He.
      apply reader_effect_length in He. apply IH in H2. congruence.
Qed.

Lemma Recv_length (d d' : device) (sockfd : Z) (cap : nat) (fl dl : Z)
  (r : bytes * option error) :
  Recv d sockfd cap fl dl = Ret (d', r) ->
  length (sockets d') = length (sockets d).
Proof.
  unfold Recv. intros H.
  destruct (getSocket d sockfd) as [[[fd0 s0]|e]| |]; simpl in H; try discriminate.
  2: { injection H as <- <-. reflexivity. }
  destruct (0 <? length (remainder s0)).
  - injection H as <- <-. apply length_insert.
  - destruct (chan_recv (rx s0)) as [[[data|] c]| |]; simpl in H; try discriminate.
    + injection H as <- <-. apply length_insert.
    + injection H as <- <-. reflexivity.
Qed.

Lemma run_length (ops : list op) (st st' : system) (l : list obs) :
  run ops st = Ret (st', l) ->
  length (sockets (dev st')) = length (sockets (dev st)).
Proof.
  revert st st' l. induction ops as [|o ops IH]; intros st st' l H; simpl in H.
  - injection H as <- <-. reflexivity.
  - destruct (step o st) as [[st1 l1]| |] eqn:H1; simpl in H; try discriminate.
    destruct (run ops st1) as [[st2 l2]| |] eqn:H2; simpl in H; try discriminate.
    injection H as <- <-. apply IH in H2. rewrite H2. clear H2 IH.
    destruct o as [bs| |sockfd cap fl dl]; simpl in H1.
    + injection H1 as <- <-. reflexivity.
    + destruct (serviceUART_inner _ _) as [[[d rest] evs]| |] eqn:Hi; simpl in H1;
        try discriminate.
      injection H1 as <- <-. simpl. eapply serviceUART_inner_length; eassumption.
    + destruct (Recv _ _ _ _ _) as [[d r]| |] eqn:Hr; simpl in H1; try discriminate.
      destruct r as [out err]. injection H1 as <- <-. simpl.
      eapply Recv_length; eassumption.
Qed.

Lemma getSocket_ok (d : device) (fd : nat) (s : socket) :
  length (sockets d) = nSockets ->
  sockets d !! fd = Some (Some s) ->
  getSocket d (Z.of_nat fd) = Ret (inl (fd, s)).
Proof.
  intros Hlen Hs. assert (Hlt : fd < nSockets).
  { rewrite <- Hlen. eapply lookup_lt_Some. exact Hs. }
  unfold nSockets in Hlt. unfold getSocket.
  assert (Hw : wrapInt (Z.of_nat fd + 1) = (Z.of_nat fd + 1)%Z).
  { unfold wrapInt, minInt, intSize. simpl Z.pow. simpl Z.sub. simpl Z.opp.
    rewrite Z.mod_small by lia. lia. }
  rewrite Hw, Hlen.
  replace (Z.of_nat fd <? 0)%Z with false by (symmetry; apply Z.ltb_ge; lia).
  replace (Z.of_nat nSockets <? Z.of_nat fd + 1)%Z with false
    by (symmetry; apply Z.ltb_ge; unfold nSockets; lia).
  simpl. rewrite Nat2Z.id, Hs. reflexivity.
Qed.

(** ** Receive queue (C2) *)

Lemma Recv_remainder_first (d : device) (fd : nat) (s : socket) (cap : nat) (fl dl : Z) :
  length (sockets d) = nSockets ->
  sockets d !! fd = Some (Some s) ->
  remainder s <> [] ->
  Recv d (Z.of_nat fd) cap fl dl
  = Ret (store d fd (set_remainder s (drop cap (remainder s))),
         (take cap (remainder s), None)).
Proof.
  intros Hlen Hs Hne. unfold Recv. rewrite (getSocket_ok d fd s Hlen Hs). simpl.
  replace (0 <? length (remainder s)) with true
    by (symmetry; apply Nat.ltb_lt; destruct (remainder s); [contradiction|simpl; lia]).
  destruct (Nat.min_spec cap (length (remainder s))) as [[Hlt ->]|[Hge ->]];
    [reflexivity|].
  rewrite drop_ge, (drop_ge _ cap), take_ge, (take_ge _ cap) by lia. reflexivity.
Qed.

Lemma Recv_next_chunk (d : device) (fd : nat) (s : socket) (data : bytes)
  (q : list bytes) (cap : nat) (fl dl : Z) :
  length (sockets d) = nSockets ->
  sockets d !! fd = Some (Some s) ->
  remainder s = [] ->
  queue (rx s) = data :: q ->
  Recv d (Z.of_nat fd) cap fl dl
  = Ret (store d fd
           (set_remainder (set_rx s {| queue := q; closed := closed (rx s) |})
              (drop cap data)),
         (take cap data, None)).
Proof.
  intros Hlen Hs Hrem Hq. unfold Recv. rewrite (getSocket_ok d fd s Hlen Hs). simpl.
  rewrite Hrem. simpl. unfold chan_recv. rewrite Hq. simpl.
  destruct (Nat.min_spec cap (length data)) as [[Hlt ->]|[Hge ->]].
  - replace (cap <? length data) with true by (symmetry; apply Nat.ltb_lt; lia).
    reflexivity.
  - rewrite Nat.ltb_irrefl. rewrite drop_ge, take_ge, (take_ge _ cap) by lia.
    unfold set_remainder, set_rx. simpl. rewrite Hrem. reflexivity.
Qed.

(** C2: along any run of the system (bytes arriving, rounds of the reader,
    calls of [Recv]), for the socket of any slot, the bytes it held at the
    start followed by the bytes queued for it are exactly the bytes [Recv]
    returned for it followed by the bytes it holds at the end, the remainder
    first and then the unread chunks in arrival order.  A non-empty remainder
    is served first and leaves the queue untouched; with an empty remainder
    the oldest chunk is taken, and what does not fit the caller's buffer
    becomes the remainder. *)
Theorem Recv_conserves_bytes
  (ops : list op) (st st' : system) (l : list obs) (fd : nat) (s : socket) :
  run ops st = Ret (st', l) ->
  length (sockets (dev st)) = nSockets ->
  sockets (dev st) !! fd = Some (Some s) ->
  exists s',
    sockets (dev st') !! fd = Some (Some s')
    /\ pending s ++ delivered fd l = returned (Z.of_nat fd) l ++ pending s'
    /\ (forall cap fl dl,
          remainder s' <> [] ->
          Recv (dev st') (Z.of_nat fd) cap fl dl
          = Ret (store (dev st') fd (set_remainder s' (drop cap (remainder s'))),
                 (take cap (remainder s'), None)))
    /\ (forall cap fl dl data q,
          remainder s' = [] ->
          queue (rx s') = data :: q ->
          Recv (dev st') (Z.of_nat fd) cap fl dl
          = Ret (store (dev st') fd
                   (set_remainder
                      (set_rx s' {| queue := q; closed := closed (rx s') |})
                      (drop cap data)),
                 (take cap data, None))).
Proof.
  intros Hrun Hlen Hs.
  destruct (run_slot ops st st' l fd s Hrun Hs) as (s' & Hs' & _ & Hp & _).
  pose proof (run_length ops st st' l Hrun) as Hlen'. rewrite Hlen in Hlen'.
  exists s'. split; [exact Hs'|]. split; [exact Hp|]. split.
  - intros cap fl dl Hne. apply Recv_remainder_first; assumption.
  - intros cap fl dl data q Hrem Hq. apply Recv_next_chunk; assumption.
Qed.

Lemma Recv_conserves_bytes_witness :
  exists st' l s',
    run ops_example sys0 = Ret (st', l)
    /\ sockets (dev st') !! 0 = Some (Some s')
    /\ pending sock3 ++ delivered 0 l = returned 0%Z l ++ pending s'.
Proof.
  destruct (run ops_example sys0) as [[st' l]| |] eqn:H;
    [|vm_compute in H; discriminate..].
  destruct (Recv_conserves_bytes ops_example sys0 st' l 0 sock3 H eq_refl eq_refl)
    as (s' & Hs' & Hp & _).
  exists st', l, s'. auto.
Defined.

(** ** Disconnect (C7) *)

(** C7, as the code has it: once [handle] has closed the channel of the
    socket the id of a SocketDisconnect event names, the channel stays
    closed along every run, no chunk is queued for the socket any more, its
    queue only loses chunks, and a [Recv] that finds both the remainder and
    the queue empty returns zero bytes with [io.EOF]. *)
Theorem disconnect_closes_queue (d d1 : device) (ev : bytes) (fd : nat) :
  HasPrefix ev (bytes_of "SocketDisconnect") = true ->
  findSocket d (split ev 1 "," "SocketDisconnect") = Ret (inl fd) ->
  handle d ev = Ret d1 ->
  length (sockets d) = nSockets ->
  exists s,
    sockets d !! fd = Some (Some s)
    /\ sockets d1 !! fd
       = Some (Some (set_rx s {| queue := queue (rx s); closed := true |}))
    /\ forall ops bs st' l,
        run ops {| dev := d1; buffered := bs |} = Ret (st', l) ->
        exists s',
          sockets (dev st') !! fd = Some (Some s')
          /\ closed (rx s') = true
          /\ delivered fd l = []
          /\ (exists k, queue (rx s') = drop k (queue (rx s)))
          /\ (remainder s' = [] ->
              queue (rx s') = [] ->
              forall cap fl dl,
                Recv (dev st') (Z.of_nat fd) cap fl dl
                = Ret (dev st', ([], Some EOF))).
Proof.
  intros Hpre Hfind Hh Hlen.
  destruct (findSocket_found d fd _ Hfind) as (s & Hs & _).
  assert (Hlt : fd < length (sockets d)) by (eapply lookup_lt_Some; exact Hs).
  unfold handle in Hh. rewrite Hpre, Hfind in Hh. simpl in Hh. rewrite Hs in Hh.
  destruct (chan_close (rx s)) as [c| |] eqn:Hc; simpl in Hh; try discriminate.
  apply chan_close_Ret in Hc as [Hopen ->]. injection Hh as <-.
  exists s. split; [exact Hs|]. split.
  { simpl. apply list_lookup_insert_eq. exact Hlt. }
  intros ops bs st' l Hrun.
  set (s1 := set_rx s {| queue := queue (rx s); closed := true |}) in *.
  assert (Hs1 : sockets (dev {| dev := store d fd s1; buffered := bs |}) !! fd
                = Some (Some s1)).
  { simpl. apply list_lookup_insert_eq. exact Hlt. }
  destruct (run_slot ops _ st' l fd s1 Hrun Hs1) as (s' & Hs' & _ & _ & Hcl).
  destruct (Hcl eq_refl) as (Hc' & Hd & k & Hq).
  exists s'. split; [exact Hs'|]. split; [exact Hc'|]. split; [exact Hd|].
  split; [exists k; exact Hq|].
  intros Hrem Hempty cap fl dl.
  pose proof (run_length ops _ st' l Hrun) as Hlen'. simpl in Hlen'.
  rewrite length_insert, Hlen in Hlen'.
  unfold Recv. rewrite (getSocket_ok (dev st') fd s' Hlen' Hs'). simpl.
  rewrite Hrem. simpl. unfold chan_recv. rewrite Hempty, Hc'. reflexivity.
Qed.

Lemma disconnect_closes_queue_witness :
  exists s,
    sockets (dev_with 0 sock3) !! 0 = Some (Some s)
    /\ sockets (store (dev_with 0 sock3) 0
                  (set_rx sock3 {| queue := []; closed := true |})) !! 0
       = Some (Some (set_rx s {| queue := queue (rx s); closed := true |})).
Proof.
  destruct (disconnect_closes_queue (dev_with 0 sock3)
              (store (dev_with 0 sock3) 0
                 (set_rx sock3 {| queue := []; closed := true |}))
              (bytes_of "SocketDisconnect,3") 0
              ltac:(vm_compute; reflexivity) ltac:(vm_compute; reflexivity)
              ltac:(vm_compute; reflexivity) ltac:(vm_compute; reflexivity))
    as (s & Hs & Hs1 & _).
  exists s. split; assumption.
Defined.

(** C7 as stated fails: a chunk that was queued before the disconnect is
    still returned by the next [Recv], which has an empty remainder and a
    closed channel, and the error is nil, not [io.EOF]. *)
Lemma Recv_after_disconnect_returns_queued_chunk :
  exists d1 d2,
    handle (dev_with 0 sock3_hi) (bytes_of "SocketDisconnect,3") = Ret d1
    /\ sockets d1 !! 0
       = Some (Some (set_rx sock3_hi {| queue := [bytes_of "hi"]; closed := true |}))
    /\ remainder sock3_hi = []
    /\ Recv d1 0 16 0 0 = Ret (d2, (bytes_of "hi", None)).
Proof.
  eexists _, _. split; [vm_compute; reflexivity|].
  split; [vm_compute; reflexivity|]. split; [reflexivity|].
  vm_compute. reflexivity.
Qed.

(** ** Framing of SocketDown events (C1) *)

Lemma stored_props (bs : bytes) (d : device) :
  pos d + length bs <= length (buf d) ->
  take (pos (stored d bs)) (buf (stored d bs)) = take (pos d) (buf d) ++ bs
  /\ pos (stored d bs) = pos d + length bs
  /\ length (buf (stored d bs)) = length (buf d)
  /\ sockets (stored d bs) = sockets d
  /\ last (stored d bs) = last d.
Proof.
  revert d. induction bs as [|b bs IH]; intros d Hfit; simpl in *.
  - rewrite app_nil_r. repeat split; lia.
  - set (d1 := set_pos (set_buf d (<[pos d := b]> (buf d))) (S (pos d))).
    destruct (IH d1) as (Ht & Hp & Hl & Hs & Hla).
    { simpl. rewrite length_insert. lia. }
    simpl in *. rewrite Ht, Hp, Hl, Hs, Hla, length_insert.
    rewrite (take_S_r _ _ b) by (apply list_lookup_insert_eq; lia).
    rewrite take_insert_ge by lia. rewrite <- app_assoc.
    repeat split; try reflexivity; lia.
Qed.

Lemma HasSuffix_CRLF_inv (s : bytes) :
  HasSuffix s CRLF = true -> exists q, s = q ++ CRLF.
Proof.
  unfold HasSuffix. intros H. apply andb_true_iff in H as [_ H].
  apply bool_decide_eq_true in H.
  exists (take (length s - length CRLF) s). rewrite <- H at 1.
  symmetry. rewrite H. rewrite <- H at 2. apply take_drop.
Qed.

Lemma quiet_no_suffix (c : bytes) :
  HasSuffix c CRLF = false -> head c <> Some ">"%char -> quiet c.
Proof.
  intros Hsuf Hhead d Hc Hle. unfold processUART.
  assert (Hfirst : (pos d =? 1) && bool_decide (buf d !! 0 = Some ">"%char) = false).
  { destruct (pos d =? 1) eqn:Hp; [|reflexivity]. apply Nat.eqb_eq in Hp.
    simpl. apply bool_decide_eq_false. intros Hb. apply Hhead.
    rewrite <- Hc, Hp. destruct (buf d) as [|x l]; [discriminate|].
    simpl in *. congruence. }
  rewrite Hfirst, Hc, Hsuf. reflexivity.
Qed.

Lemma HasPrefix_app (p s : bytes) : HasPrefix (p ++ s) p = true.
Proof.
  induction p as [|c p IH]; simpl; [destruct s; reflexivity|].
  rewrite Ascii.eqb_refl. exact IH.
Qed.

Lemma SplitN_field (p rest : bytes) (k : nat) :
  no_byte "," p = true ->
  SplitN (p ++ ","%char :: rest) "," (S (S k)) = p :: SplitN rest "," (S k).
Proof.
  induction p as [|c p IH]; intros Hp.
  - reflexivity.
  - simpl in Hp. apply andb_true_iff in Hp as [Hc Hp].
    apply negb_true_iff in Hc. cbn [app SplitN]. rewrite Hc.
    rewrite (IH Hp). reflexivity.
Qed.

Lemma digits_no_byte (x : ascii) (l : bytes) (acc v : Z) :
  digit x = None -> digits acc l = Some v -> no_byte x l = true.
Proof.
  intros Hx. revert acc. induction l as [|c l IH]; intros acc H; simpl in *.
  - reflexivity.
  - destruct (digit c) as [dv|] eqn:Hc; [|discriminate].
    rewrite (IH _ H), andb_true_r. apply negb_true_iff.
    destruct (Ascii.eqb_spec c x) as [->|]; [congruence|reflexivity].
Qed.

Lemma Atoi_no_byte (x : ascii) (s : string) (v : Z) :
  digit x = None -> x <> "-"%char -> x <> "+"%char ->
  Atoi s = Some v -> no_byte x (bytes_of s) = true.
Proof.
  intros Hx Hm Hp. unfold Atoi.
  destruct (bytes_of s) as [|c rest] eqn:Hb; [discriminate|].
  assert (Hcons : forall c0, c0 <> x -> no_byte x rest = true ->
                             no_byte x (c0 :: rest) = true).
  { intros c0 Hne Hr. unfold no_byte in *. cbn [forallb]. rewrite Hr.
    apply Ascii.eqb_neq in Hne. rewrite Hne. reflexivity. }
  destruct (Ascii.eqb_spec c "-") as [->|Hc1].
  - intros H. apply Hcons; [congruence|].
    destruct rest as [|a r]; [discriminate|].
    destruct (digits 0%Z (a :: r)) eqn:Hd; [|discriminate].
    eapply digits_no_byte; eassumption.
  - destruct (Ascii.eqb_spec c "+") as [->|Hc2].
    + intros H. apply Hcons; [congruence|].
      destruct rest as [|a r]; [discriminate|].
      destruct (digits 0%Z (a :: r)) eqn:Hd; [|discriminate].
      eapply digits_no_byte; eassumption.
    + intros H. cbv iota in H.
      destruct (digits 0%Z (c :: rest)) eqn:Hd; [|discriminate].
      eapply digits_no_byte; eassumption.
Qed.

Lemma SplitN_1 (s : bytes) (sep : ascii) : SplitN s sep 1 = [s].
Proof. destruct s; reflexivity. Qed.

Lemma header_app (i lenstr : string) (r : bytes) :
  SocketDown_header i lenstr ++ r
  = bytes_of "+EVENT:SocketDown"
    ++ ","%char :: bytes_of i ++ ","%char :: bytes_of lenstr ++ ","%char :: r.
Proof.
  unfold SocketDown_header.
  rewrite <- app_assoc. f_equal. cbn [app]. f_equal.
  rewrite <- app_assoc. f_equal. cbn [app]. f_equal.
  rewrite <- app_assoc. reflexivity.
Qed.

Lemma processUART_SocketDown (d : device) (i lenstr : string) (r : bytes) (n : Z) :
  take (pos d) (buf d) = SocketDown_header i lenstr ++ r ++ CRLF ->
  no_byte "," (bytes_of i) = true ->
  Atoi lenstr = Some n ->
  processUART d =
  if negb (n =? Z.of_nat (length r))%Z then Ret (d, [])
  else
    x ← findSocket d i;
    match x with
    | inr (ErrNew msg) => Ret (set_pos d 0, [Printed ("[ERROR] " +:+ msg)])
    | inr _ => Ret (set_pos d 0, [])
    | inl fd =>
        match sockets d !! fd with
        | Some (Some s) =>
            c ← chan_send (rx s) r;
            Ret (store (set_pos d 0) fd (set_rx s c), [Queued fd r])
        | _ => Ret (set_pos d 0, [])
        end
    end.
Proof.
  intros Hc Hi Hn. rewrite app_assoc in Hc.
  unfold processUART. rewrite (line_pos d _ Hc). cbn [andb].
  rewrite Hc, HasSuffix_CRLF, take_strip_CRLF. cbn [negb].
  rewrite header_app, HasPrefix_app.
  rewrite (SplitN_field _ _ 2) by reflexivity.
  rewrite (SplitN_field _ _ 1) by exact Hi.
  rewrite (SplitN_field _ _ 0)
    by (apply (Atoi_no_byte _ _ n); [reflexivity|discriminate|discriminate|exact Hn]).
  rewrite SplitN_1.
  unfold str, bytes_of. rewrite !string_of_list_ascii_of_string. rewrite Hn.
  reflexivity.
Qed.

Lemma feed_quiet (bs : bytes) (d : device) :
  pos d + length bs <= length (buf d) ->
  (forall k, k < length bs -> quiet (take (pos d) (buf d) ++ take (S k) bs)) ->
  serviceUART_inner d bs = Ret (stored d bs, [], []).
Proof.
  revert d. induction bs as [|b bs IH]; intros d Hfit Hq; [reflexivity|].
  cbn [serviceUART_inner stored]. simpl in Hfit.
  replace (length (buf d) <=? pos d) with false by (symmetry; apply Nat.leb_gt; lia).
  set (d1 := set_pos (set_buf d (<[pos d := b]> (buf d))) (S (pos d))).
  assert (Hc1 : take (pos d1) (buf d1) = take (pos d) (buf d) ++ [b]).
  { simpl. rewrite (take_S_r _ _ b) by (apply list_lookup_insert_eq; lia).
    rewrite take_insert_ge by lia. reflexivity. }
  assert (Hfit1 : pos d1 + length bs <= length (buf d1)).
  { simpl. rewrite length_insert. lia. }
  unfold readByte. fold d1.
  rewrite (Hq 0 ltac:(simpl; lia) d1 Hc1 ltac:(lia)).
  cbn [mbind result_bind]. rewrite (IH d1 Hfit1); [reflexivity|].
  intros k Hk. rewrite Hc1, <- app_assoc. apply (Hq (S k)). simpl. lia.
Qed.

Lemma feed_last (bs : bytes) (b : ascii) (d : device) :
  pos d + S (length bs) <= length (buf d) ->
  (forall k, k < length bs -> quiet (take (pos d) (buf d) ++ take (S k) bs)) ->
  serviceUART_inner d (bs ++ [b])
  = '(d2, evs) ← readByte (stored d bs) b; Ret (d2, [], evs).
Proof.
  revert d. induction bs as [|x bs IH]; intros d Hfit Hq.
  - cbn [app serviceUART_inner stored].
    replace (length (buf d) <=? pos d) with false by (symmetry; apply Nat.leb_gt; lia).
    destruct (readByte d b) as [[d1 evs1]| |]; cbn [mbind result_bind];
      rewrite ?app_nil_r; reflexivity.
  - cbn [app serviceUART_inner stored]. simpl in Hfit.
    replace (length (buf d) <=? pos d) with false by (symmetry; apply Nat.leb_gt; lia).
    set (d1 := set_pos (set_buf d (<[pos d := x]> (buf d))) (S (pos d))).
    assert (Hc1 : take (pos d1) (buf d1) = take (pos d) (buf d) ++ [x]).
    { simpl. rewrite (take_S_r _ _ x) by (apply list_lookup_insert_eq; lia).
      rewrite take_insert_ge by lia. reflexivity. }
    assert (Hfit1 : pos d1 + S (length bs) <= length (buf d1)).
    { simpl. rewrite length_insert. lia. }
    unfold readByte at 1. fold d1.
    rewrite (Hq 0 ltac:(simpl; lia) d1 Hc1 ltac:(lia)).
    cbn [mbind result_bind]. rewrite (IH d1 Hfit1).
    + destruct (readByte (stored d1 bs) b) as [[d2 evs2]| |]; reflexivity.
    + intros k Hk. rewrite Hc1, <- app_assoc. apply (Hq (S k)). simpl. lia.
Qed.

Lemma no_byte_app (x : ascii) (a b : bytes) :
  no_byte x (a ++ b) = no_byte x a && no_byte x b.
Proof. apply forallb_app. Qed.

Lemma no_byte_cons (x c : ascii) (l : bytes) :
  no_byte x (c :: l) = negb (Ascii.eqb c x) && no_byte x l.
Proof. reflexivity. Qed.

Lemma no_byte_middle (x : ascii) (a b : bytes) : no_byte x (a ++ x :: b) = false.
Proof.
  rewrite no_byte_app. unfold no_byte at 2. cbn [forallb].
  rewrite Ascii.eqb_refl. apply andb_false_r.
Qed.

Lemma header_no_LF (i lenstr : string) (n : Z) :
  no_byte LF (bytes_of i) = true ->
  Atoi lenstr = Some n ->
  no_byte LF (SocketDown_header i lenstr) = true.
Proof.
  intros Hi Hn. unfold SocketDown_header.
  rewrite no_byte_app, no_byte_cons, no_byte_app, no_byte_cons, no_byte_app, Hi.
  rewrite (Atoi_no_byte LF lenstr n);
    [reflexivity|reflexivity|discriminate|discriminate|exact Hn].
Qed.

Lemma header_last (i lenstr : string) :
  exists H0, SocketDown_header i lenstr = H0 ++ [","%char].
Proof.
  exists (bytes_of "+EVENT:SocketDown" ++ ","%char :: bytes_of i ++ ","%char :: bytes_of lenstr).
  unfold SocketDown_header. rewrite <- app_assoc. f_equal. cbn [app]. f_equal.
  rewrite <- app_assoc. reflexivity.
Qed.

Lemma header_not_CR_end (i lenstr : string) (q : bytes) :
  SocketDown_header i lenstr <> q ++ [CR].
Proof.
  destruct (header_last i lenstr) as (H0 & ->). intros H.
  apply app_inj_tail in H as [_ H]. discriminate.
Qed.

Lemma frame_prefix_quiet (i lenstr : string) (data : bytes) (m : nat) :
  no_byte "," (bytes_of i) = true ->
  no_byte LF (bytes_of i) = true ->
  Atoi lenstr = Some (Z.of_nat (length data)) ->
  0 < m < length (SocketDown_frame i lenstr data) ->
  quiet (take m (SocketDown_frame i lenstr data)).
Proof.
  intros Hic Hil Hn Hm.
  set (F := SocketDown_frame i lenstr data) in *.
  destruct (HasSuffix (take m F) CRLF) eqn:Hsuf.
  2: { apply quiet_no_suffix; [exact Hsuf|].
       destruct m as [|m]; [lia|]. subst F.
       unfold SocketDown_frame, SocketDown_header.
       change (bytes_of "+EVENT:SocketDown")
         with ("+"%char :: bytes_of "EVENT:SocketDown").
       simpl. discriminate. }
  apply HasSuffix_CRLF_inv in Hsuf as (q & Hq).
  assert (HF : F = (q ++ [CR]) ++ LF :: drop m F).
  { rewrite <- (take_drop m F) at 1. rewrite Hq. unfold CRLF.
    rewrite <- !app_assoc. reflexivity. }
  assert (HY : drop m F <> []).
  { intros H0. apply (f_equal length) in H0. rewrite length_drop in H0.
    change (length (@nil ascii)) with 0 in H0. lia. }
  unfold F at 1 in HF. unfold SocketDown_frame in HF. symmetry in HF.
  apply app_eq_app in HF as (l & [[H1 H2]|[H1 H2]]).
  - destruct l as [|x l _] using rev_ind.
    + rewrite app_nil_r in H1. symmetry in H1. exfalso.
      eapply header_not_CR_end; eauto.
    + rewrite app_assoc in H1. apply app_inj_tail in H1 as [-> <-].
      rewrite Hq. intros d Hc Hle. rewrite <- app_assoc in Hc.
      rewrite (processUART_SocketDown d i lenstr l _ Hc Hic Hn).
      replace (_ =? _)%Z with false; [reflexivity|].
      symmetry. apply Z.eqb_neq. apply (f_equal length) in H2.
      rewrite !length_app in H2. simpl in H2.
      destruct (drop m F); [contradiction|]. simpl in H2. lia.
  - exfalso. destruct l as [|x l].
    + rewrite app_nil_r in H1. eapply header_not_CR_end; eauto.
    + injection H2 as <- _.
      pose proof (header_no_LF i lenstr _ Hil Hn) as Hno.
      rewrite H1, no_byte_middle in Hno. discriminate.
Qed.

Lemma stored_app (a b : bytes) (d : device) :
  stored d (a ++ b) = stored (stored d a) b.
Proof. revert d. induction a as [|x a IH]; intros d; simpl; [reflexivity|apply IH]. Qed.

Lemma snoc_take_last (A : Type) (a : list A) (z : A) :
  a ++ [z] = take (length (a ++ [z]) - 1) (a ++ [z]) ++ [z].
Proof.
  rewrite length_app. cbn [length].
  replace (length a + 1 - 1) with (length a) by lia.
  rewrite take_app_length. reflexivity.
Qed.

Lemma frame_take_last (i lenstr : string) (data : bytes) :
  SocketDown_frame i lenstr data
  = take (length (SocketDown_frame i lenstr data) - 1)
      (SocketDown_frame i lenstr data) ++ [LF].
Proof.
  assert (H : SocketDown_frame i lenstr data
              = (SocketDown_header i lenstr ++ data ++ [CR]) ++ [LF]).
  { unfold SocketDown_frame, CRLF. rewrite <- !app_assoc. reflexivity. }
  rewrite H. apply snoc_take_last.
Qed.

Lemma readByte_stored (d : device) (b : ascii) :
  readByte d b = processUART (stored d [b]).
Proof. reflexivity. Qed.

(** Framing: from an empty buffer, while the bytes of a SocketDown event
    arrive the parser only stores them (the position is the number of bytes
    read, no event is emitted, the sockets are untouched), also at a CR/LF
    inside the data; at the last byte the whole data is queued as one chunk
    for the socket [findSocket] returns for the id. *)
Lemma SocketDown_framing
  (d : device) (i lenstr : string) (data : bytes) (fd : nat) (s : socket) :
  pos d = 0 ->
  length (SocketDown_frame i lenstr data) <= length (buf d) ->
  no_byte "," (bytes_of i) = true ->
  no_byte LF (bytes_of i) = true ->
  Atoi lenstr = Some (Z.of_nat (length data)) ->
  findSocket d i = Ret (inl fd) ->
  sockets d !! fd = Some (Some s) ->
  closed (rx s) = false ->
  length (queue (rx s)) < rxCap ->
  (forall k, k < length (SocketDown_frame i lenstr data) ->
     serviceUART_inner d (take k (SocketDown_frame i lenstr data))
     = Ret (stored d (take k (SocketDown_frame i lenstr data)), [], [])
     /\ pos (stored d (take k (SocketDown_frame i lenstr data))) = k
     /\ sockets (stored d (take k (SocketDown_frame i lenstr data))) = sockets d)
  /\ serviceUART_inner d (SocketDown_frame i lenstr data)
     = Ret (store (set_pos (stored d (SocketDown_frame i lenstr data)) 0) fd
              (set_rx s {| queue := queue (rx s) ++ [data]; closed := false |}),
            [], [Queued fd data]).
Proof.
  intros Hpos Hfit Hic Hil Hn Hfind Hs Hopen Hroom.
  pose proof (frame_take_last i lenstr data) as HF.
  assert (Hcontent : SocketDown_frame i lenstr data
                     = SocketDown_header i lenstr ++ data ++ CRLF) by reflexivity.
  pose proof (fun m => frame_prefix_quiet i lenstr data m Hic Hil Hn) as Hpre.
  remember (SocketDown_frame i lenstr data) as F eqn:HFdef.
  assert (Hpos1 : 0 < length F).
  { rewrite HF, length_app. cbn [length]. lia. }
  assert (Hquiet : forall k m, m <= k -> k < length F -> 0 < m ->
            quiet (take (pos d) (buf d) ++ take m (take k F))).
  { intros k m Hmk Hk Hm. rewrite Hpos, take_take, take_0, app_nil_l.
    replace (min m k) with m by lia. apply Hpre. lia. }
  split.
  - intros k Hk.
    assert (Hlen : length (take k F) = k) by (rewrite length_take; lia).
    destruct (stored_props (take k F) d ltac:(lia)) as (_ & Hp & _ & Hss & _).
    split; [|split; [lia|exact Hss]].
    apply feed_quiet; [lia|]. intros j Hj. apply Hquiet; lia.
  - assert (Hlen : length (take (length F - 1) F) = length F - 1)
      by (rewrite length_take; lia).
    rewrite HF at 1.
    rewrite feed_last; [|lia|intros j Hj; apply Hquiet; lia].
    rewrite readByte_stored, <- stored_app, <- HF.
    destruct (stored_props F d ltac:(lia)) as (Hc & Hp & Hl & Hss & Hla).
    assert (Hc' : take (pos (stored d F)) (buf (stored d F))
                  = SocketDown_header i lenstr ++ data ++ CRLF)
      by (rewrite Hc, Hpos, take_0, app_nil_l; exact Hcontent).
    rewrite (processUART_SocketDown (stored d F) i lenstr data _ Hc' Hic Hn).
    rewrite Z.eqb_refl. cbn [negb].
    unfold findSocket. rewrite Hss. fold (findSocket d i). rewrite Hfind.
    cbn [mbind result_bind]. rewrite Hs.
    unfold chan_send. rewrite Hopen.
    apply Nat.ltb_lt in Hroom. rewrite Hroom. reflexivity.
Qed.

(** The example of the specification, with the socket of id "3" in slot 0:
    nothing is finalized at the CR/LF inside the data (after 26 bytes the
    position is 26 and the queue is empty), and the last byte queues the 8
    bytes as one chunk. *)
Lemma SocketDown_framing_example :
  stream_ab_cdef = SocketDown_frame "3" "8" (bytes_of "ab" ++ CRLF ++ bytes_of "cdef")
  /\ take 26 stream_ab_cdef = bytes_of "+EVENT:SocketDown,3,8,ab" ++ CRLF
  /\ serviceUART_inner (dev_with 0 sock3) (take 26 stream_ab_cdef)
     = Ret (stored (dev_with 0 sock3) (take 26 stream_ab_cdef), [], [])
  /\ pos (stored (dev_with 0 sock3) (take 26 stream_ab_cdef)) = 26
  /\ serviceUART_inner (dev_with 0 sock3) stream_ab_cdef
     = Ret (store (set_pos (stored (dev_with 0 sock3) stream_ab_cdef) 0) 0
              (set_rx sock3
                 {| queue := [bytes_of "ab" ++ CRLF ++ bytes_of "cdef"];
                    closed := false |}),
            [], [Queued 0 (bytes_of "ab" ++ CRLF ++ bytes_of "cdef")]).
Proof.
  destruct (SocketDown_framing (dev_with 0 sock3) "3" "8"
              (bytes_of "ab" ++ CRLF ++ bytes_of "cdef") 0 sock3)
    as [Hpre Hlast]; try (vm_compute; reflexivity); try (vm_compute; lia).
  split; [reflexivity|]. split; [reflexivity|].
  destruct (Hpre 26 ltac:(vm_compute; lia)) as (H1 & H2 & _).
  split; [exact H1|]. split; [exact H2|]. exact Hlast.
Qed.

(** C1 fails on a device the driver reaches by opening two sockets,
    connecting the second (id "3") and closing the first: slot 0 is nil and
    the socket of id "3" is in slot 1.  When the event is complete,
    [findSocket] reads the id of slot 0 and the reader panics; the chunk is
    not delivered.  [getSocket] tests the same slot for nil. *)
Theorem SocketDown_nil_slot_panics :
  (exists w',
      Close (store (store NewDevice 0 (new_socket 6)) 1 sock3) (world0 []) 0
      = Ret (dev_with 1 sock3, w', None))
  /\ sockets (dev_with 1 sock3) !! 0 = Some None
  /\ sockets (dev_with 1 sock3) !! 1 = Some (Some sock3)
  /\ id sock3 = "3"
  /\ findSocket (dev_with 1 sock3) "3" = Panic "nil pointer dereference"
  /\ serviceUART_inner (dev_with 1 sock3) stream_ab_cdef
     = Panic "nil pointer dereference"
  /\ getSocket (dev_with 1 sock3) 0 = Ret (inr ErrInvalidSocketFd).
Proof.
  split; [eexists; vm_compute; reflexivity|].
  repeat split; vm_compute; reflexivity.
Qed.

(** * Further properties of the driver *)

(** ** Descriptors *)

Lemma wrapInt_small (z : Z) : (minInt <= z <= maxInt)%Z -> wrapInt z = z.
Proof.
  unfold wrapInt, minInt, maxInt, intSize. simpl Z.pow. simpl Z.sub. simpl Z.opp.
  intros H. rewrite Z.mod_small by lia. lia.
Qed.

Lemma wrapInt_succ_maxInt : wrapInt (maxInt + 1) = minInt.
Proof. reflexivity. Qed.

(** [getSocket] on the table of eight slots: a negative descriptor, one from
    8 up to the largest [int] but one, or one that names a nil slot gives the
    invalid-descriptor error; an occupied slot gives its socket. *)
Lemma getSocket_cases (d : device) (sockfd : Z) :
  length (sockets d) = nSockets ->
  (minInt <= sockfd < maxInt)%Z ->
  getSocket d sockfd
  = match sockets d !! Z.to_nat sockfd with
    | Some (Some s) =>
        if (sockfd <? 0)%Z then Ret (inr ErrInvalidSocketFd)
        else Ret (inl (Z.to_nat sockfd, s))
    | _ => Ret (inr ErrInvalidSocketFd)
    end.
Proof.
  intros Hlen Hrange. unfold getSocket.
  rewrite wrapInt_small by (unfold minInt, maxInt, intSize in *; simpl in *; lia).
  rewrite Hlen. destruct (sockfd <? 0)%Z eqn:Hneg; simpl.
  - destruct (sockets d !! Z.to_nat sockfd) as [[s|]|]; reflexivity.
  - apply Z.ltb_ge in Hneg.
    destruct (Z.of_nat nSockets <? sockfd + 1)%Z eqn:Hhi.
    + apply Z.ltb_lt in Hhi. unfold nSockets in Hhi.
      rewrite lookup_ge_None_2 by (rewrite Hlen; unfold nSockets; lia).
      reflexivity.
    + destruct (sockets d !! Z.to_nat sockfd) as [[s|]|] eqn:Hl; try reflexivity.
      apply lookup_ge_None in Hl. rewrite Hlen in Hl.
      apply Z.ltb_ge in Hhi. unfold nSockets in *. lia.
Qed.

(** X1: a descriptor that is negative, beyond the table or that names an
    empty slot is refused by [Recv], [Close] and [Send] with the
    invalid-descriptor error; the device is unchanged, nothing is written to
    the transport and no ticker is started. *)
Theorem invalid_descriptor_rejected
  (d : device) (w : world) (sockfd : Z) (cap : nat) (b : bytes) (fl dl : Z) :
  length (sockets d) = nSockets ->
  (minInt <= sockfd < maxInt)%Z ->
  (sockfd < 0)%Z \/ (forall s, sockets d !! Z.to_nat sockfd <> Some (Some s)) ->
  getSocket d sockfd = Ret (inr ErrInvalidSocketFd)
  /\ Recv d sockfd cap fl dl = Ret (d, ([], Some ErrInvalidSocketFd))
  /\ Close d w sockfd = Ret (d, w, Some ErrInvalidSocketFd)
  /\ Send d w sockfd b fl dl = Ret (w, (0%Z, Some ErrInvalidSocketFd)).
Proof.
  intros Hlen Hrange Hbad.
  assert (Hg : getSocket d sockfd = Ret (inr ErrInvalidSocketFd)).
  { rewrite (getSocket_cases d sockfd Hlen Hrange).
    destruct (sockets d !! Z.to_nat sockfd) as [[s|]|] eqn:Hl; try reflexivity.
    destruct Hbad as [Hneg|Hnone].
    - apply Z.ltb_lt in Hneg. rewrite Hneg. reflexivity.
    - exfalso. apply (Hnone s). reflexivity. }
  unfold Recv, Close, Send. rewrite Hg. repeat split; reflexivity.
Qed.

Lemma invalid_descriptor_rejected_witness :
  Recv (dev_with 0 sock3) 5 16 0 0
  = Ret (dev_with 0 sock3, ([], Some ErrInvalidSocketFd))
  /\ Close (dev_with 0 sock3) (world0 []) (-1) = Ret (dev_with 0 sock3, world0 [], Some ErrInvalidSocketFd).
Proof.
  split.
  - apply (invalid_descriptor_rejected (dev_with 0 sock3) (world0 []) 5 16 [] 0 0);
      [reflexivity|vm_compute; split; [discriminate|reflexivity]|].
    right. intros s. vm_compute. discriminate.
  - apply (invalid_descriptor_rejected (dev_with 0 sock3) (world0 []) (-1) 16 [] 0 0);
      [reflexivity|vm_compute; split; [discriminate|reflexivity]|].
    left. reflexivity.
Defined.

(** X2: for the largest [int] the test [sockfd+1 > len(d.sockets)] wraps
    around and passes, and the index into the table of eight slots is out of
    range: [getSocket], and with it [Recv], [Close] and [Send], panic. *)
Theorem largest_descriptor_panics
  (d : device) (w : world) (cap : nat) (b : bytes) (fl dl : Z) :
  length (sockets d) = nSockets ->
  getSocket d maxInt = Panic "index out of range"
  /\ Recv d maxInt cap fl dl = Panic "index out of range"
  /\ Close d w maxInt = Panic "index out of range"
  /\ Send d w maxInt b fl dl = Panic "index out of range".
Proof.
  intros Hlen.
  assert (Hg : getSocket d maxInt = Panic "index out of range").
  { unfold getSocket. rewrite wrapInt_succ_maxInt, Hlen.
    replace (maxInt <? 0)%Z with false by reflexivity.
    replace (Z.of_nat nSockets <? minInt)%Z with false by reflexivity.
    simpl orb. cbv iota.
    rewrite lookup_ge_None_2; [reflexivity|].
    rewrite Hlen. unfold nSockets.
    change maxInt with 2147483647%Z. lia. }
  unfold Recv, Close, Send. rewrite Hg. repeat split; reflexivity.
Qed.

Lemma largest_descriptor_panics_witness :
  getSocket NewDevice maxInt = Panic "index out of range".
Proof.
  apply (proj1 (largest_descriptor_panics NewDevice (world0 []) 0 [] 0 0 eq_refl)).
Defined.

(** ** Opening and closing sockets *)

Lemma Socket_success (K : netdev) (d d1 : device) (domain stype proto fd : Z) :
  Socket K d domain stype proto = (d1, (fd, None)) ->
  exists k, fd = Z.of_nat k
            /\ sockets d !! k = Some None
            /\ (forall j, j < k -> sockets d !! j <> Some None)
            /\ d1 = store d k (new_socket proto).
Proof.
  unfold Socket. destruct (negb _); [discriminate|].
  destruct (_ || _); [|discriminate].
  destruct (Socket_scan (sockets d) 0) as [k|] eqn:Hscan; [|discriminate].
  intros [= <- <-]. apply Socket_scan_found in Hscan as (i & -> & Hi & Hlow).
  exists i. auto.
Qed.

(** X3: [Socket] tests the family first and the type/protocol pair second;
    on either failure it returns descriptor -1 with the matching error and
    leaves the device as it was.  Whenever it fails the device is unchanged;
    whenever it succeeds the only change is the new socket in the slot it
    returns, which was empty. *)
Theorem Socket_rejects_without_change
  (K : netdev) (d : device) (domain stype proto : Z) :
  (domain <> AF_INET K ->
   Socket K d domain stype proto = (d, ((-1)%Z, Some ErrFamilyNotSupported)))
  /\ (domain = AF_INET K ->
      ~ ((proto = IPPROTO_TCP K /\ stype = SOCK_STREAM K)
         \/ (proto = IPPROTO_TLS K /\ stype = SOCK_STREAM K)
         \/ (proto = IPPROTO_UDP K /\ stype = SOCK_DGRAM K)) ->
      Socket K d domain stype proto = (d, ((-1)%Z, Some ErrProtocolNotSupported)))
  /\ (forall d1 fd e,
        Socket K d domain stype proto = (d1, (fd, Some e)) ->
        d1 = d /\ fd = (-1)%Z)
  /\ (forall d1 fd,
        Socket K d domain stype proto = (d1, (fd, None)) ->
        exists k, fd = Z.of_nat k /\ sockets d !! k = Some None
                  /\ d1 = store d k (new_socket proto)).
Proof.
  split; [|split; [|split]].
  - intros Hne. unfold Socket. apply Z.eqb_neq in Hne. rewrite Hne. reflexivity.
  - intros -> Hpair. unfold Socket. rewrite Z.eqb_refl. simpl negb. cbv iota.
    destruct (_ || _) eqn:Hok; [|reflexivity].
    exfalso. apply Hpair.
    apply orb_true_iff in Hok as [Hok|Hok];
      [apply orb_true_iff in Hok as [Hok|Hok]|];
      apply andb_true_iff in Hok as [H1 H2];
      apply Z.eqb_eq in H1; apply Z.eqb_eq in H2; auto.
  - intros d1 fd e. unfold Socket.
    destruct (negb _); [intros [= <- <- _]; auto|].
    destruct (_ || _); [|intros [= <- <- _]; auto].
    destruct (Socket_scan _ _); [discriminate|intros [= <- <- _]; auto].
  - intros d1 fd H. apply Socket_success in H as (k & -> & Hk & _ & ->).
    exists k. auto.
Qed.

Lemma Socket_rejects_without_change_witness :
  Socket netdev0 NewDevice 10 1 6 = (NewDevice, ((-1)%Z, Some ErrFamilyNotSupported))
  /\ Socket netdev0 NewDevice 2 2 6 = (NewDevice, ((-1)%Z, Some ErrProtocolNotSupported)).
Proof.
  split.
  - apply (proj1 (Socket_rejects_without_change netdev0 NewDevice 10 1 6)).
    discriminate.
  - apply (proj1 (proj2 (Socket_rejects_without_change netdev0 NewDevice 2 2 6)));
      [reflexivity|].
    intros [[_ H]|[[H _]|[H _]]]; discriminate.
Defined.

(** X4: a socket that was opened and never connected is closed without any
    command: [Close] writes nothing, starts no ticker and gives back exactly
    the device [Socket] started from; the descriptor is then invalid. *)
Theorem Socket_then_Close_restores
  (K : netdev) (d d1 : device) (w : world) (domain stype proto fd : Z) :
  length (sockets d) = nSockets ->
  Socket K d domain stype proto = (d1, (fd, None)) ->
  Close d1 w fd = Ret (d, w, None)
  /\ getSocket d fd = Ret (inr ErrInvalidSocketFd)
  /\ Close d w fd = Ret (d, w, Some ErrInvalidSocketFd).
Proof.
  intros Hlen H. apply Socket_success in H as (k & -> & Hk & _ & ->).
  assert (Hlt : k < length (sockets d)) by (eapply lookup_lt_Some; exact Hk).
  assert (Hg1 : getSocket (store d k (new_socket proto)) (Z.of_nat k)
                = Ret (inl (k, new_socket proto))).
  { apply getSocket_ok.
    - simpl. rewrite length_insert. exact Hlen.
    - simpl. apply list_lookup_insert_eq. exact Hlt. }
  assert (Hg : getSocket d (Z.of_nat k) = Ret (inr ErrInvalidSocketFd)).
  { rewrite getSocket_cases; [|exact Hlen|].
    - rewrite Nat2Z.id, Hk. reflexivity.
    - rewrite Hlen in Hlt. unfold nSockets in Hlt.
      change minInt with (-2147483648)%Z. change maxInt with 2147483647%Z. lia. }
  split; [|split].
  - unfold Close. rewrite Hg1. simpl.
    rewrite list_insert_insert_eq, (list_insert_id _ _ _ Hk).
    destruct d; reflexivity.
  - exact Hg.
  - unfold Close. rewrite Hg. reflexivity.
Qed.

Lemma Socket_then_Close_restores_witness :
  Close (store NewDevice 0 (new_socket 6)) (world0 []) 0 = Ret (NewDevice, world0 [], None).
Proof.
  apply (proj1 (Socket_then_Close_restores netdev0 NewDevice
                  (store NewDevice 0 (new_socket 6)) (world0 []) 2 1 6 0
                  eq_refl eq_refl)).
Defined.

(** ** Sending *)

(** X5: on a valid socket [Send] first writes the command
    [AT+SOCKETSEND=<id>,<len(buf)>]; it writes the payload, as one write and
    right after the command, only when that write succeeded and the reader
    then sent the ready marker; it returns [len(buf)] with a nil error only
    when the payload write succeeded and the reader then sent OK, and 0 with
    an error in every other case. *)
Theorem Send_writes_payload_only_when_ready
  (d : device) (w : world) (sockfd : Z) (b : bytes) (fl dl : Z)
  (fd : nat) (s : socket) :
  getSocket d sockfd = Ret (inl (fd, s)) ->
  exists w' n err,
    Send d w sockfd b fl dl = Ret (w', (n, err))
    /\ (txlog w'
        = txlog w ++ [bytes_of ("AT+SOCKETSEND=" +:+ id s +:+ "," +:+ Itoa (length b)) ++ CRLF]
        \/ (txlog w'
            = txlog w ++ [bytes_of ("AT+SOCKETSEND=" +:+ id s +:+ "," +:+ Itoa (length b)) ++ CRLF; b]
            /\ mjoin (head (writes w)) = None
            /\ head (offers w) = Some (Some SigTxReady)))
    /\ (err = None ->
        n = Z.of_nat (length b)
        /\ txlog w'
           = txlog w ++ [bytes_of ("AT+SOCKETSEND=" +:+ id s +:+ "," +:+ Itoa (length b)) ++ CRLF; b]
        /\ mjoin (head (tail (writes w))) = None
        /\ exists rest, offers w = Some SigTxReady :: Some SigOk :: rest)
    /\ (err <> None -> n = 0%Z).
Proof.
  intros Hg. unfold Send. rewrite Hg. cbn [mbind result_bind].
  generalize ("AT+SOCKETSEND=" +:+ id s +:+ "," +:+ Itoa (length b)); intros cmd.
  unfold send, uart_Write, await. simpl.
  destruct (mjoin (head (writes w))) as [e1|] eqn:Hw1; simpl.
  { eexists _, _, _. split; [reflexivity|]. simpl.
    split; [left; reflexivity|]. split; [discriminate|reflexivity]. }
  destruct (offers w) as [|[[| |e2]|] rest] eqn:Hoff; simpl;
    try (eexists _, _, _; split; [reflexivity|]; simpl;
         split; [left; reflexivity|]; split; [discriminate|reflexivity]).
  destruct (mjoin (head (tail (writes w)))) as [e3|] eqn:Hw2; simpl.
  { eexists _, _, _. split; [reflexivity|]. simpl.
    split; [right; rewrite <- app_assoc; auto|]. split; [discriminate|reflexivity]. }
  destruct rest as [|[[| |e4]|] rest]; simpl;
    eexists _, _, _; (split; [reflexivity|]); simpl;
    (split; [right; rewrite <- app_assoc; auto|]);
    (split; [try discriminate|try reflexivity; try (intros H; contradiction H; reflexivity)]).
  intros _. split; [reflexivity|]. split; [rewrite <- app_assoc; reflexivity|].
  split; [reflexivity|]. eexists. reflexivity.
Qed.

Lemma Send_writes_payload_only_when_ready_witness :
  exists w' n err,
    Send (dev_with 0 sock3) (world0 [Some SigTxReady; Some SigOk]) 0 (bytes_of "hello") 0 0
    = Ret (w', (n, err))
    /\ (err = None -> n = 5%Z).
Proof.
  destruct (Send_writes_payload_only_when_ready (dev_with 0 sock3)
              (world0 [Some SigTxReady; Some SigOk]) 0 (bytes_of "hello") 0 0 0 sock3
              eq_refl) as (w' & n & err & H & _ & Hok & _).
  exists w', n, err. split; [exact H|]. intros He. apply (Hok He).
Defined.

(** ** Receiving *)

(** X6: [Recv] reads neither its flags nor its deadline, and on a valid
    socket it waits exactly when there is nothing to return: the remainder
    is empty, no chunk is queued and the channel is still open. *)
Theorem Recv_waits_only_when_nothing_to_read
  (d : device) (sockfd : Z) (cap : nat) (fl1 dl1 fl2 dl2 : Z) :
  Recv d sockfd cap fl1 dl1 = Recv d sockfd cap fl2 dl2
  /\ forall fd s,
      getSocket d sockfd = Ret (inl (fd, s)) ->
      (Recv d sockfd cap fl1 dl1 = Block
       <-> remainder s = [] /\ queue (rx s) = [] /\ closed (rx s) = false).
Proof.
  split; [reflexivity|]. intros fd s Hg. unfold Recv. rewrite Hg.
  cbn [mbind result_bind]. unfold chan_recv.
  destruct (remainder s) as [|r0 rem]; simpl.
  - destruct (queue (rx s)) as [|v q]; simpl.
    + destruct (closed (rx s)); simpl; split; try discriminate; auto.
      intros (_ & _ & H). discriminate.
    + split; [discriminate|]. intros (_ & H & _). discriminate.
  - split; [discriminate|]. intros (H & _). discriminate.
Qed.

Lemma Recv_waits_only_when_nothing_to_read_witness :
  Recv (dev_with 0 sock3) 0 16 0 0 = Block.
Proof.
  apply (proj2 (Recv_waits_only_when_nothing_to_read (dev_with 0 sock3) 0 16 0 0 0 0)
           0 sock3 eq_refl).
  repeat split; reflexivity.
Defined.

(** X7: a [Recv] that returns never gives more bytes than the caller's
    buffer holds; with an error it gives no byte and changes nothing; in
    every case the parser's buffer, position and last line and all other
    slots are as before, and the socket keeps its id and its place. *)
Theorem Recv_is_bounded_and_local
  (d d' : device) (sockfd : Z) (cap : nat) (fl dl : Z) (out : bytes)
  (err : option error) :
  Recv d sockfd cap fl dl = Ret (d', (out, err)) ->
  length out <= cap
  /\ (err <> None -> out = [] /\ d' = d)
  /\ buf d' = buf d /\ pos d' = pos d /\ last d' = last d
  /\ length (sockets d') = length (sockets d)
  /\ (forall fd', Z.of_nat fd' <> sockfd -> sockets d' !! fd' = sockets d !! fd')
  /\ (forall fd s, sockets d !! fd = Some (Some s) ->
        exists s', sockets d' !! fd = Some (Some s') /\ id s' = id s
                   /\ closed (rx s') = closed (rx s)).
Proof.
  intros H.
  assert (Hslots : forall fd s, sockets d !! fd = Some (Some s) ->
            exists s', sockets d' !! fd = Some (Some s') /\ id s' = id s).
  { intros fd s Hs. destruct (Recv_slot _ _ _ _ _ _ _ _ fd s H Hs) as (s' & Hs' & Hid & _).
    eauto. }
  pose proof (Recv_length _ _ _ _ _ _ _ H) as Hlen.
  unfold Recv in H.
  destruct (getSocket d sockfd) as [[[fd0 s0]|e]| |] eqn:Hg; simpl in H;
    try discriminate.
  2: { injection H as <- <- <-. simpl. repeat split; auto; try lia.
       intros fd s Hs. exists s. auto. }
  apply getSocket_slot in Hg as [-> Hs0].
  assert (Hother : forall s1 fd', Z.of_nat fd' <> Z.of_nat fd0 ->
            <[fd0 := Some s1]> (sockets d) !! fd' = sockets d !! fd').
  { intros s1 fd' Hne. apply list_lookup_insert_ne. lia. }
  assert (Hmine : forall s1, id s1 = id s0 -> closed (rx s1) = closed (rx s0) ->
            forall fd s, sockets d !! fd = Some (Some s) ->
            exists s', <[fd0 := Some s1]> (sockets d) !! fd = Some (Some s')
                       /\ id s' = id s /\ closed (rx s') = closed (rx s)).
  { intros s1 Hid Hcl fd s Hs. destruct (decide (fd0 = fd)) as [->|Hne].
    - rewrite Hs0 in Hs. injection Hs as <-. exists s1.
      split; [apply list_lookup_insert_eq; eapply lookup_lt_Some; exact Hs0|auto].
    - exists s. rewrite list_lookup_insert_ne by exact Hne. auto. }
  destruct (0 <? length (remainder s0)).
  - injection H as <- <- <-. simpl.
    split; [rewrite length_take; lia|]. split; [intros Hc; contradiction Hc; reflexivity|].
    repeat split; auto; apply Hmine; reflexivity.
  - destruct (chan_recv (rx s0)) as [[[data|] c]| |] eqn:Hr; simpl in H;
      try discriminate; apply chan_recv_Ret in Hr.
    + destruct Hr as [Hq Hcl]. injection H as <- <- <-. simpl.
      split; [rewrite length_take; lia|].
      split; [intros Hc; contradiction Hc; reflexivity|].
      repeat split; auto;
        apply Hmine; destruct (_ <? _); simpl; auto.
    + destruct Hr as (_ & _ & ->). injection H as <- <- <-. simpl.
      repeat split; auto; try lia. intros fd s Hs. exists s. auto.
Qed.

Lemma Recv_is_bounded_and_local_witness :
  exists d' out err,
    Recv (dev_with 0 sock3_hi) 0 1 0 0 = Ret (d', (out, err))
    /\ length out <= 1.
Proof.
  destruct (Recv (dev_with 0 sock3_hi) 0 1 0 0) as [[d' [out err]]| |] eqn:H;
    [|vm_compute in H; discriminate..].
  exists d', out, err. split; [reflexivity|].
  apply (Recv_is_bounded_and_local _ _ _ _ _ _ _ _ H).
Defined.

(** ** Invariants of the reader *)

Lemma only_rx_refl (ss : list (option socket)) : only_rx ss ss.
Proof.
  intros fd. destruct (ss !! fd) as [[s|]|] eqn:H; try reflexivity.
  exists (rx s). destruct s; reflexivity.
Qed.

Lemma only_rx_trans (ss1 ss2 ss3 : list (option socket)) :
  only_rx ss1 ss2 -> only_rx ss2 ss3 -> only_rx ss1 ss3.
Proof.
  intros H12 H23 fd. specialize (H12 fd). specialize (H23 fd).
  destruct (ss1 !! fd) as [[s|]|].
  - destruct H12 as (c & H12). rewrite H12 in H23. destruct H23 as (c' & H23).
    exists c'. rewrite H23. reflexivity.
  - rewrite H12 in H23. exact H23.
  - rewrite H12 in H23. exact H23.
Qed.

Lemma only_rx_insert (ss : list (option socket)) (fd : nat) (s : socket) (c : chan) :
  ss !! fd = Some (Some s) -> only_rx ss (<[fd := Some (set_rx s c)]> ss).
Proof.
  intros Hs fd'. destruct (decide (fd = fd')) as [<-|Hne].
  - rewrite Hs. exists c. apply list_lookup_insert_eq. eapply lookup_lt_Some. exact Hs.
  - rewrite list_lookup_insert_ne by exact Hne.
    destruct (ss !! fd') as [[s'|]|]; try reflexivity.
    exists (rx s'). destruct s'; reflexivity.
Qed.

Lemma reader_effect_only_rx (ss ss' : list (option socket)) (q : list (nat * bytes)) :
  reader_effect ss ss' q -> only_rx ss ss'.
Proof.
  intros [|fd s data Hs _|fd s Hs _];
    [apply only_rx_refl|apply only_rx_insert; exact Hs..].
Qed.

Lemma processUART_pos (d d' : device) (evs : list event) :
  processUART d = Ret (d', evs) -> pos d' = pos d \/ pos d' = 0.
Proof.
  unfold processUART. intros H.
  destruct (_ && _); simpl in H.
  { injection H as <- <-. right. reflexivity. }
  destruct (HasSuffix _ _); simpl in H.
  2: { injection H as <- <-. left. reflexivity. }
  destruct (HasPrefix _ (bytes_of "+EVENT:SocketDown")).
  { destruct (SplitN _ _ _) as [|p0 [|p1 [|p2 [|p3 [|p4 ps]]]]];
      try (injection H as <- <-; right; reflexivity).
    destruct (Atoi (str p2)) as [len|]; [|injection H as <- <-; right; reflexivity].
    destruct (negb _); [injection H as <- <-; left; reflexivity|].
    destruct (findSocket d (str p1)) as [[fd|e]| |] eqn:Hf; simpl in H; try discriminate.
    - destruct (sockets d !! fd) as [[s|]|]; try (injection H as <- <-; right; reflexivity).
      destruct (chan_send (rx s) p3) as [c| |]; simpl in H; try discriminate.
      injection H as <- <-. right. reflexivity.
    - destruct e; injection H as <- <-; right; reflexivity. }
  destruct (HasPrefix _ (bytes_of "OK")).
  { injection H as <- <-. right. reflexivity. }
  destruct (HasPrefix _ (bytes_of "ERROR")).
  { injection H as <- <-. right. reflexivity. }
  destruct (HasPrefix _ (bytes_of "+EVENT:")).
  { destruct (handle _ _) as [d1| |] eqn:Hh; simpl in H; try discriminate.
    injection H as <- <-. apply handle_effect in Hh as (_ & _ & Hp & _).
    right. exact Hp. }
  destruct (0 <? _); injection H as <- <-; right; reflexivity.
Qed.

Lemma serviceUART_inner_invariants (bs : bytes) (d d' : device) (rest : bytes)
  (evs : list event) :
  serviceUART_inner d bs = Ret (d', rest, evs) ->
  pos d <= length (buf d) ->
  pos d' <= length (buf d')
  /\ length (buf d') = length (buf d)
  /\ (exists consumed, bs = consumed ++ rest)
  /\ only_rx (sockets d) (sockets d').
Proof.
  revert d d' rest evs. induction bs as [|b bs IH]; intros d d' rest evs H Hle.
  - injection H as <- <- <-. split; [exact Hle|]. split; [reflexivity|].
    split; [exists []; reflexivity|apply only_rx_refl].
  - simpl in H. destruct (length (buf d) <=? pos d) eqn:Hfull.
    + injection H as <- <- <-. simpl. split; [lia|]. split; [reflexivity|].
      split; [exists []; reflexivity|apply only_rx_refl].
    + apply Nat.leb_gt in Hfull.
      destruct (readByte d b) as [[d1 evs1]| |] eqn:H1; simpl in H; try discriminate.
      destruct (serviceUART_inner d1 bs) as [[[d2 rest2] evs2]| |] eqn:H2;
        simpl in H; try discriminate.
      injection H as <- <- <-. unfold readByte in H1.
      pose proof (processUART_pos _ _ _ H1) as Hp.
      apply processUART_effect in H1 as [He Hb]. simpl in He, Hb, Hp.
      assert (Hl1 : length (buf d1) = length (buf d))
        by (rewrite Hb; apply length_insert).
      destruct (IH _ _ _ _ H2 ltac:(lia)) as (Hle2 & Hl2 & (consumed & ->) & Hrx).
      split; [exact Hle2|]. split; [congruence|].
      split; [exists (b :: consumed); reflexivity|].
      eapply only_rx_trans; [eapply reader_effect_only_rx; exact He|exact Hrx].
Qed.

(** X8: rounds of the reader keep the position within the buffer (so the
    store [d.buf[d.pos]] and the slice [d.buf[:d.pos]] stay in range), keep
    the buffer and the table at their lengths, consume the transport's bytes
    in order, and change the socket table at most in the channels: no slot
    is filled or emptied and every socket keeps its protocol, id, remainder
    and local address. *)
Theorem reader_keeps_within_bounds
  (n : nat) (d d' : device) (bs rest : bytes) (evs : list event) :
  serviceUART n d bs = Ret (d', rest, evs) ->
  pos d <= length (buf d) ->
  pos d' <= length (buf d')
  /\ length (buf d') = length (buf d)
  /\ (exists consumed, bs = consumed ++ rest)
  /\ only_rx (sockets d) (sockets d').
Proof.
  revert d d' bs rest evs. induction n as [|n IH]; intros d d' bs rest evs H Hle.
  - injection H as <- <- <-. split; [exact Hle|]. split; [reflexivity|].
    split; [exists []; rewrite app_nil_l; reflexivity|apply only_rx_refl].
  - simpl in H.
    destruct (serviceUART_inner d bs) as [[[d1 rest1] evs1]| |] eqn:H1;
      simpl in H; try discriminate.
    destruct (serviceUART n d1 rest1) as [[[d2 rest2] evs2]| |] eqn:H2;
      simpl in H; try discriminate.
    injection H as <- <- <-.
    destruct (serviceUART_inner_invariants _ _ _ _ _ H1 Hle)
      as (Hle1 & Hl1 & (c1 & ->) & Hrx1).
    destruct (IH _ _ _ _ _ H2 Hle1) as (Hle2 & Hl2 & (c2 & ->) & Hrx2).
    split; [exact Hle2|]. split; [congruence|].
    split; [exists (c1 ++ c2); apply app_assoc|].
    eapply only_rx_trans; eassumption.
Qed.

Lemma reader_keeps_within_bounds_witness :
  exists d' rest evs,
    serviceUART 2 (dev_with 0 sock3) stream_ab_cdef = Ret (d', rest, evs)
    /\ pos d' <= length (buf d').
Proof.
  destruct (serviceUART 2 (dev_with 0 sock3) stream_ab_cdef) as [[[d' rest] evs]| |] eqn:H;
    [|vm_compute in H; discriminate..].
  exists d', rest, evs. split; [reflexivity|].
  apply (reader_keeps_within_bounds 2 _ _ _ _ _ H). vm_compute. lia.
Defined.

(** ** Looking a socket up by its id *)

Lemma findSocket_from_cases (ss : list (option socket)) (k : nat) (i : string) :
  match findSocket_from ss k i with
  | Ret (inl fd) =>
      exists j s, fd = k + j /\ ss !! j = Some (Some s) /\ id s = i
                  /\ forall j', j' < j ->
                       exists s', ss !! j' = Some (Some s') /\ id s' <> i
  | Ret (inr e) =>
      e = ErrNew ("Socket not found with id: " +:+ i)
      /\ forall j, j < length ss ->
           exists s', ss !! j = Some (Some s') /\ id s' <> i
  | Panic m =>
      m = "nil pointer dereference"
      /\ exists j, ss !! j = Some None
                   /\ forall j', j' < j ->
                        exists s', ss !! j' = Some (Some s') /\ id s' <> i
  | Block => False
  end.
Proof.
  revert k. induction ss as [|[s|] ss IH]; intros k; simpl.
  - split; [reflexivity|]. intros j Hj. lia.
  - destruct (bool_decide (id s = i)) eqn:Hid.
    + apply bool_decide_eq_true in Hid. exists 0, s.
      split; [lia|]. split; [reflexivity|]. split; [exact Hid|]. intros j' Hj'. lia.
    + apply bool_decide_eq_false in Hid. specialize (IH (S k)).
      destruct (findSocket_from ss (S k) i) as [[fd|e]|m|].
      * destruct IH as (j & s' & -> & Hj & Hs' & Hlow).
        exists (S j), s'. split; [lia|]. split; [exact Hj|]. split; [exact Hs'|].
        intros [|j'] Hj'; [exists s; auto|]. apply Hlow. lia.
      * destruct IH as [-> Hall]. split; [reflexivity|].
        intros [|j] Hj; [exists s; auto|]. apply Hall. simpl in Hj. lia.
      * destruct IH as [-> (j & Hj & Hlow)]. split; [reflexivity|].
        exists (S j). split; [exact Hj|].
        intros [|j'] Hj'; [exists s; auto|]. apply Hlow. lia.
      * exact IH.
  - split; [reflexivity|]. exists 0. split; [reflexivity|]. intros j' Hj'. lia.
Qed.

(** X9: [findSocket] returns the lowest slot whose socket has the id, provided
    every slot below it holds a socket; it returns the "Socket not found"
    error only when all slots hold sockets with other ids; and it panics with
    a nil dereference exactly when, scanning upwards, it meets an empty slot
    before a socket with the id.  It never waits. *)
Theorem findSocket_first_match_or_nil (d : device) (i : string) :
  match findSocket d i with
  | Ret (inl fd) =>
      exists s, sockets d !! fd = Some (Some s) /\ id s = i
                /\ forall j, j < fd ->
                     exists s', sockets d !! j = Some (Some s') /\ id s' <> i
  | Ret (inr e) =>
      e = ErrNew ("Socket not found with id: " +:+ i)
      /\ forall j, j < length (sockets d) ->
           exists s', sockets d !! j = Some (Some s') /\ id s' <> i
  | Panic m =>
      m = "nil pointer dereference"
      /\ exists j, sockets d !! j = Some None
                   /\ forall j', j' < j ->
                        exists s', sockets d !! j' = Some (Some s') /\ id s' <> i
  | Block => False
  end.
Proof.
  unfold findSocket. pose proof (findSocket_from_cases (sockets d) 0 i) as H.
  destruct (findSocket_from (sockets d) 0 i) as [[fd|e]|m|]; try exact H.
  destruct H as (j & s & -> & Hj & Hs & Hlow). exists s. auto.
Qed.

(** ** Events the parser cannot deliver *)

Local Ltac line_prelude Hc :=
  unfold processUART; rewrite (line_pos _ _ Hc); cbn [andb];
  rewrite Hc, HasSuffix_CRLF, take_strip_CRLF; cbn [negb].

Lemma processUART_SocketDown_fields
  (d : device) (i lenstr : string) (r : bytes) :
  take (pos d) (buf d) = SocketDown_header i lenstr ++ r ++ CRLF ->
  no_byte "," (bytes_of i) = true ->
  no_byte "," (bytes_of lenstr) = true ->
  processUART d =
  match Atoi lenstr with
  | None =>
      Ret (set_pos d 0,
           [Printed ("[ERROR] Error parsing length from: " +:+ lenstr)])
  | Some n =>
      if negb (n =? Z.of_nat (length r))%Z then Ret (d, [])
      else
        x ← findSocket d i;
        match x with
        | inr (ErrNew msg) => Ret (set_pos d 0, [Printed ("[ERROR] " +:+ msg)])
        | inr _ => Ret (set_pos d 0, [])
        | inl fd =>
            match sockets d !! fd with
            | Some (Some s) =>
                c ← chan_send (rx s) r;
                Ret (store (set_pos d 0) fd (set_rx s c), [Queued fd r])
            | _ => Ret (set_pos d 0, [])
            end
        end
  end.
Proof.
  intros Hc Hi Hl. rewrite app_assoc in Hc. line_prelude Hc.
  rewrite header_app, HasPrefix_app.
  rewrite (SplitN_field _ _ 2) by reflexivity.
  rewrite (SplitN_field _ _ 1) by exact Hi.
  rewrite (SplitN_field _ _ 0) by exact Hl.
  rewrite SplitN_1.
  unfold str, bytes_of. rewrite !string_of_list_ascii_of_string.
  destruct (Atoi lenstr); reflexivity.
Qed.

(** X10: once the channel of a socket is closed, a further SocketDisconnect
    event for its id, or a complete SocketDown event for it, makes the
    reader panic (close of, or send on, a closed channel). *)
Theorem events_for_closed_socket_panic
  (d : device) (i : string) (fd : nat) (s : socket) :
  findSocket d i = Ret (inl fd) ->
  sockets d !! fd = Some (Some s) ->
  closed (rx s) = true ->
  (forall ev,
      HasPrefix ev (bytes_of "SocketDisconnect") = true ->
      split ev 1 "," "SocketDisconnect" = i ->
      handle d ev = Panic "close of closed channel")
  /\ (forall lenstr data,
        take (pos d) (buf d) = SocketDown_frame i lenstr data ->
        no_byte "," (bytes_of i) = true ->
        Atoi lenstr = Some (Z.of_nat (length data)) ->
        processUART d = Panic "send on closed channel").
Proof.
  intros Hf Hs Hcl. split.
  - intros ev Hpre Hid. unfold handle. rewrite Hpre, Hid, Hf.
    cbn [mbind result_bind]. rewrite Hs. unfold chan_close. rewrite Hcl. reflexivity.
  - intros lenstr data Hc Hi Hn.
    rewrite (processUART_SocketDown d i lenstr data _ Hc Hi Hn).
    rewrite Z.eqb_refl. cbn [negb]. rewrite Hf. cbn [mbind result_bind].
    rewrite Hs. unfold chan_send. rewrite Hcl. reflexivity.
Qed.

Lemma events_for_closed_socket_panic_witness :
  handle (dev_with 0 (set_rx sock3 {| queue := []; closed := true |}))
    (bytes_of "SocketDisconnect,3")
  = Panic "close of closed channel".
Proof.
  apply (proj1 (events_for_closed_socket_panic
                  (dev_with 0 (set_rx sock3 {| queue := []; closed := true |}))
                  "3" 0 (set_rx sock3 {| queue := []; closed := true |})
                  eq_refl eq_refl eq_refl)); reflexivity.
Defined.

(** X11: a complete SocketDown event for an open socket is queued when the
    channel holds fewer than 10 chunks and makes the reader wait when it
    holds 10: the chunk is not dropped and the position is not yet usable
    for the next unit. *)
Theorem full_queue_makes_reader_wait
  (d : device) (i lenstr : string) (data : bytes) (fd : nat) (s : socket) :
  take (pos d) (buf d) = SocketDown_frame i lenstr data ->
  no_byte "," (bytes_of i) = true ->
  Atoi lenstr = Some (Z.of_nat (length data)) ->
  findSocket d i = Ret (inl fd) ->
  sockets d !! fd = Some (Some s) ->
  closed (rx s) = false ->
  (length (queue (rx s)) < rxCap ->
   processUART d
   = Ret (store (set_pos d 0) fd
            (set_rx s {| queue := queue (rx s) ++ [data]; closed := false |}),
          [Queued fd data]))
  /\ (rxCap <= length (queue (rx s)) -> processUART d = Block).
Proof.
  intros Hc Hi Hn Hf Hs Hopen.
  rewrite (processUART_SocketDown d i lenstr data _ Hc Hi Hn).
  rewrite Z.eqb_refl. cbn [negb]. rewrite Hf. cbn [mbind result_bind].
  rewrite Hs. unfold chan_send. rewrite Hopen. split; intros Hlen.
  - apply Nat.ltb_lt in Hlen. rewrite Hlen. reflexivity.
  - apply Nat.ltb_ge in Hlen. rewrite Hlen. reflexivity.
Qed.

Lemma full_queue_makes_reader_wait_witness :
  processUART (store (dev_holding (SocketDown_frame "3" "2" (bytes_of "hi"))) 0 sock3_full)
  = Block.
Proof.
  apply (proj2 (full_queue_makes_reader_wait
                  (store (dev_holding (SocketDown_frame "3" "2" (bytes_of "hi"))) 0 sock3_full)
                  "3" "2" (bytes_of "hi") 0 sock3_full
                  ltac:(vm_compute; reflexivity) eq_refl eq_refl eq_refl eq_refl eq_refl)).
  vm_compute. lia.
Defined.

Lemma chan_send_room (c c' : chan) (v : bytes) :
  chan_send c v = Ret c' -> length (queue c') <= rxCap.
Proof.
  unfold chan_send. destruct (closed c); [discriminate|].
  destruct (_ <? _) eqn:Hlt; [|discriminate]. intros [= <-]. simpl.
  apply Nat.ltb_lt in Hlt. rewrite length_app. simpl. lia.
Qed.

Lemma queues_bounded_insert (ss : list (option socket)) (fd : nat) (s : socket) :
  queues_bounded ss -> length (queue (rx s)) <= rxCap ->
  queues_bounded (<[fd := Some s]> ss).
Proof.
  intros Hb Hs fd' s' Hl. destruct (decide (fd = fd')) as [<-|Hne].
  - destruct (decide (fd < length ss)) as [Hlt|Hge].
    + rewrite list_lookup_insert_eq in Hl by exact Hlt. injection Hl as <-. exact Hs.
    + rewrite list_insert_ge in Hl by lia. eapply Hb. exact Hl.
  - rewrite list_lookup_insert_ne in Hl by exact Hne. eapply Hb. exact Hl.
Qed.

Lemma handle_bounded (d d' : device) (ev : bytes) :
  handle d ev = Ret d' -> queues_bounded (sockets d) -> queues_bounded (sockets d').
Proof.
  intros H Hb. apply handle_effect in H as (He & _).
  inversion He as [Hss Hq|fd s data Hs Hopen Hss Hq|fd s Hs Hopen Hss Hq].
  - exact Hb.
  - apply queues_bounded_insert; [exact Hb|]. simpl. eapply Hb. exact Hs.
Qed.

Lemma processUART_bounded (d d' : device) (evs : list event) :
  processUART d = Ret (d', evs) ->
  queues_bounded (sockets d) -> queues_bounded (sockets d').
Proof.
  unfold processUART. intros H Hb.
  destruct (_ && _); simpl in H.
  { injection H as <- <-. exact Hb. }
  destruct (HasSuffix _ _); simpl in H.
  2: { injection H as <- <-. exact Hb. }
  destruct (HasPrefix _ (bytes_of "+EVENT:SocketDown")).
  { destruct (SplitN _ _ _) as [|p0 [|p1 [|p2 [|p3 [|p4 ps]]]]];
      try (injection H as <- <-; exact Hb).
    destruct (Atoi (str p2)) as [len|]; [|injection H as <- <-; exact Hb].
    destruct (negb _); [injection H as <- <-; exact Hb|].
    destruct (findSocket d (str p1)) as [[fd|e]| |] eqn:Hf; simpl in H; try discriminate.
    - destruct (sockets d !! fd) as [[s|]|]; try (injection H as <- <-; exact Hb).
      destruct (chan_send (rx s) p3) as [c| |] eqn:Hc; simpl in H; try discriminate.
      injection H as <- <-. simpl.
      apply queues_bounded_insert; [exact Hb|]. simpl. eapply chan_send_room. exact Hc.
    - destruct e; injection H as <- <-; exact Hb. }
  destruct (HasPrefix _ (bytes_of "OK")).
  { injection H as <- <-. exact Hb. }
  destruct (HasPrefix _ (bytes_of "ERROR")).
  { injection H as <- <-. exact Hb. }
  destruct (HasPrefix _ (bytes_of "+EVENT:")).
  { destruct (handle _ _) as [d1| |] eqn:Hh; simpl in H; try discriminate.
    injection H as <- <-. eapply handle_bounded; [exact Hh|exact Hb]. }
  destruct (0 <? _); injection H as <- <-; exact Hb.
Qed.

Lemma serviceUART_inner_bounded (bs : bytes) (d d' : device) (rest : bytes)
  (evs : list event) :
  serviceUART_inner d bs = Ret (d', rest, evs) ->
  queues_bounded (sockets d) -> queues_bounded (sockets d').
Proof.
  revert d d' rest evs. induction bs as [|b bs IH]; intros d d' rest evs H Hb.
  - injection H as <- <- <-. exact Hb.
  - simpl in H. destruct (length (buf d) <=? pos d).
    + injection H as <- <- <-. exact Hb.
    + destruct (readByte d b) as [[d1 evs1]| |] eqn:H1; simpl in H; try discriminate.
      destruct (serviceUART_inner d1 bs) as [[[d2 rest2] evs2]| |] eqn:H2;
        simpl in H; try discriminate.
      injection H as <- <- <-.
      eapply IH; [exact H2|]. eapply processUART_bounded; [exact H1|exact Hb].
Qed.

Lemma Recv_bounded (d d' : device) (sockfd : Z) (cap : nat) (fl dl : Z)
  (r : bytes * option error) :
  Recv d sockfd cap fl dl = Ret (d', r) ->
  queues_bounded (sockets d) -> queues_bounded (sockets d').
Proof.
  unfold Recv. intros H Hb.
  destruct (getSocket d sockfd) as [[[fd0 s0]|e]| |] eqn:Hg; simpl in H;
    try discriminate.
  2: { injection H as <- <-. exact Hb. }
  apply getSocket_slot in Hg as [_ Hs0]. pose proof (Hb _ _ Hs0) as Hq0.
  destruct (0 <? length (remainder s0)).
  - injection H as <- <-. simpl. apply queues_bounded_insert; [exact Hb|exact Hq0].
  - destruct (chan_recv (rx s0)) as [[[data|] c]| |] eqn:Hr; simpl in H;
      try discriminate; apply chan_recv_Ret in Hr.
    + destruct Hr as [Hq _]. injection H as <- <-. simpl.
      apply queues_bounded_insert; [exact Hb|].
      rewrite Hq in Hq0. simpl in Hq0. destruct (_ <? _); simpl; lia.
    + injection H as <- <-. exact Hb.
Qed.

(** X12: along any run of the system no channel ever holds more than its
    10 chunks, provided none did at the start (as on a new device, or after
    [Socket], which makes the channel empty). *)
Theorem queues_stay_within_capacity
  (ops : list op) (st st' : system) (l : list obs) :
  run ops st = Ret (st', l) ->
  queues_bounded (sockets (dev st)) ->
  queues_bounded (sockets (dev st')).
Proof.
  revert st st' l. induction ops as [|o ops IH]; intros st st' l H Hb; simpl in H.
  - injection H as <- <-. exact Hb.
  - destruct (step o st) as [[st1 l1]| |] eqn:H1; simpl in H; try discriminate.
    destruct (run ops st1) as [[st2 l2]| |] eqn:H2; simpl in H; try discriminate.
    injection H as <- <-. eapply IH; [exact H2|]. clear H2 IH.
    destruct o as [bs| |sockfd cap fl dl]; simpl in H1.
    + injection H1 as <- <-. exact Hb.
    + destruct (serviceUART_inner _ _) as [[[d rest] evs]| |] eqn:Hi; simpl in H1;
        try discriminate.
      injection H1 as <- <-. simpl. eapply serviceUART_inner_bounded; eassumption.
    + destruct (Recv _ _ _ _ _) as [[d r]| |] eqn:Hr; simpl in H1; try discriminate.
      destruct r as [out err]. injection H1 as <- <-. simpl.
      eapply Recv_bounded; eassumption.
Qed.

Lemma queues_stay_within_capacity_witness :
  exists st' l,
    run ops_example sys0 = Ret (st', l)
    /\ queues_bounded (sockets (dev st')).
Proof.
  destruct (run ops_example sys0) as [[st' l]| |] eqn:H;
    [|vm_compute in H; discriminate..].
  exists st', l. split; [reflexivity|].
  apply (queues_stay_within_capacity ops_example sys0 st' l H).
  intros fd s Hs. destruct fd as [|fd].
  - vm_compute in Hs. injection Hs as <-. vm_compute. lia.
  - exfalso. do 7 (destruct fd as [|fd]; [vm_compute in Hs; discriminate|]).
    vm_compute in Hs. discriminate.
Defined.

Lemma SplitN_length (s : bytes) (sep : ascii) (n : nat) :
  length (SplitN s sep (S n)) = min (S n) (S (count_byte sep s)).
Proof.
  revert n. induction s as [|c s IH]; intros [|n]; try reflexivity.
  cbn [SplitN count_byte]. destruct (Ascii.eqb c sep).
  - cbn [length]. rewrite IH. lia.
  - specialize (IH (S n)).
    destruct (SplitN s sep (S (S n))) as [|p ps]; simpl in *; lia.
Qed.

Lemma count_byte_app (x : ascii) (a b : bytes) :
  count_byte x (a ++ b) = count_byte x a + count_byte x b.
Proof.
  induction a as [|c a IH]; simpl; [reflexivity|].
  destruct (Ascii.eqb c x); rewrite IH; reflexivity.
Qed.

Lemma findSocket_error (d : device) (i : string) (e : error) :
  findSocket d i = Ret (inr e) -> e = ErrNew ("Socket not found with id: " +:+ i).
Proof.
  unfold findSocket. intros H.
  pose proof (findSocket_from_cases (sockets d) 0 i) as Hc.
  rewrite H in Hc. apply Hc.
Qed.

(** X13: a complete SocketDown event that cannot be delivered is dropped:
    when the length field is not a number, when no socket has the id (all
    slots holding sockets with other ids), or when the line has fewer than
    four comma-separated fields, the parser prints one error line, resets
    the position and leaves the sockets and the last line untouched; nothing
    is queued and nothing is signalled. *)
Theorem undeliverable_SocketDown_is_dropped (d : device) :
  (forall i lenstr r,
      take (pos d) (buf d) = SocketDown_header i lenstr ++ r ++ CRLF ->
      no_byte "," (bytes_of i) = true ->
      no_byte "," (bytes_of lenstr) = true ->
      Atoi lenstr = None ->
      processUART d
      = Ret (set_pos d 0,
             [Printed ("[ERROR] Error parsing length from: " +:+ lenstr)]))
  /\ (forall i lenstr r e,
        take (pos d) (buf d) = SocketDown_header i lenstr ++ r ++ CRLF ->
        no_byte "," (bytes_of i) = true ->
        Atoi lenstr = Some (Z.of_nat (length r)) ->
        findSocket d i = Ret (inr e) ->
        processUART d
        = Ret (set_pos d 0,
               [Printed ("[ERROR] Socket not found with id: " +:+ i)]))
  /\ (forall rest,
        take (pos d) (buf d) = bytes_of "+EVENT:SocketDown" ++ rest ++ CRLF ->
        count_byte "," rest < 3 ->
        processUART d
        = Ret (set_pos d 0,
               [Printed ("[ERROR] Error parsing +EVENT:SocketDown: "
                         +:+ str (bytes_of "+EVENT:SocketDown" ++ rest))])).
Proof.
  split; [|split].
  - intros i lenstr r Hc Hi Hl Hn.
    rewrite (processUART_SocketDown_fields d i lenstr r Hc Hi Hl), Hn. reflexivity.
  - intros i lenstr r e Hc Hi Hn Hf.
    rewrite (processUART_SocketDown d i lenstr r _ Hc Hi Hn).
    rewrite Z.eqb_refl. cbn [negb]. rewrite Hf.
    rewrite (findSocket_error d i e Hf). reflexivity.
  - intros rest Hc Hcount. rewrite app_assoc in Hc. line_prelude Hc.
    rewrite HasPrefix_app.
    pose proof (SplitN_length (bytes_of "+EVENT:SocketDown" ++ rest) "," 3) as Hlen.
    rewrite count_byte_app in Hlen.
    change (count_byte "," (bytes_of "+EVENT:SocketDown")) with 0 in Hlen.
    destruct (SplitN _ _ _) as [|p0 [|p1 [|p2 [|p3 [|p4 ps]]]]];
      try reflexivity; cbn [length] in Hlen; lia.
Qed.

Lemma undeliverable_SocketDown_is_dropped_witness :
  processUART (dev_holding (bytes_of "+EVENT:SocketDown,3,xy,hello" ++ CRLF))
  = Ret (set_pos (dev_holding (bytes_of "+EVENT:SocketDown,3,xy,hello" ++ CRLF)) 0,
         [Printed ("[ERROR] Error parsing length from: " +:+ "xy")]).
Proof.
  apply (proj1 (undeliverable_SocketDown_is_dropped
                  (dev_holding (bytes_of "+EVENT:SocketDown,3,xy,hello" ++ CRLF)))
           "3" "xy" (bytes_of "hello")); vm_compute; reflexivity.
Defined.

(** ** Lines and events the parser accepts *)

Lemma HasPrefix_app_app (p s q : bytes) : HasPrefix (p ++ s) (p ++ q) = HasPrefix s q.
Proof.
  induction p as [|c p IH]; simpl; [reflexivity|].
  rewrite Ascii.eqb_refl. exact IH.
Qed.

Lemma HasPrefix_shorter (s p q : bytes) :
  HasPrefix s (p ++ q) = true -> HasPrefix s p = true.
Proof.
  revert s. induction p as [|c p IH]; intros s H; [destruct s; reflexivity|].
  destruct s as [|c' s]; simpl in *; [discriminate|].
  apply andb_true_iff in H as [Hc Hp]. rewrite Hc. simpl. apply IH. exact Hp.
Qed.

(** X14: an event line [+EVENT:<rest>] whose rest begins neither with
    "SocketDown" nor with "SocketDisconnect" is consumed without any effect
    but the reset of the position: no signal, no print, the sockets and the
    last line as before. *)
Theorem other_events_are_ignored (d : device) (ev : bytes) :
  take (pos d) (buf d) = bytes_of "+EVENT:" ++ ev ++ CRLF ->
  HasPrefix ev (bytes_of "SocketDown") = false ->
  HasPrefix ev (bytes_of "SocketDisconnect") = false ->
  processUART d = Ret (set_pos d 0, []).
Proof.
  intros Hc Hdown Hdis. rewrite app_assoc in Hc. line_prelude Hc.
  change (bytes_of "+EVENT:SocketDown") with (bytes_of "+EVENT:" ++ bytes_of "SocketDown").
  rewrite HasPrefix_app_app, Hdown.
  assert (Hplus : HasPrefix (bytes_of "+EVENT:" ++ ev) ("+"%char :: bytes_of "EVENT:") = true)
    by exact (HasPrefix_app (bytes_of "+EVENT:") ev).
  assert (Hok : HasPrefix (bytes_of "+EVENT:" ++ ev) (bytes_of "OK") = false)
    by exact (HasPrefix_other_head _ (bytes_of "EVENT:") (bytes_of "K") "+" "O"
                ltac:(discriminate) Hplus).
  assert (Herr : HasPrefix (bytes_of "+EVENT:" ++ ev) (bytes_of "ERROR") = false)
    by exact (HasPrefix_other_head _ (bytes_of "EVENT:") (bytes_of "RROR") "+" "E"
                ltac:(discriminate) Hplus).
  rewrite Hok, Herr, HasPrefix_app.
  change (String.length "+EVENT:") with (length (bytes_of "+EVENT:")).
  rewrite drop_app_length. unfold handle. rewrite Hdis.
  destruct (HasPrefix ev (bytes_of "SocketSeed,2,1")); reflexivity.
Qed.

Lemma other_events_are_ignored_witness :
  processUART (dev_holding (bytes_of "+EVENT:WIFI_CONNECT" ++ CRLF))
  = Ret (set_pos (dev_holding (bytes_of "+EVENT:WIFI_CONNECT" ++ CRLF)) 0, []).
Proof.
  apply (other_events_are_ignored
           (dev_holding (bytes_of "+EVENT:WIFI_CONNECT" ++ CRLF))
           (bytes_of "WIFI_CONNECT")); vm_compute; reflexivity.
Defined.

Lemma header_head (i lenstr : string) (y : bytes) :
  head (SocketDown_header i lenstr ++ y) = Some "+"%char.
Proof. reflexivity. Qed.

Lemma quiet_overlong (i lenstr : string) (n : Z) (y : bytes) :
  no_byte "," (bytes_of i) = true ->
  Atoi lenstr = Some n ->
  (n + 2 < Z.of_nat (length y))%Z ->
  quiet (SocketDown_header i lenstr ++ y).
Proof.
  intros Hi Hn Hlong.
  destruct (HasSuffix (SocketDown_header i lenstr ++ y) CRLF) eqn:Hsuf.
  2: { apply quiet_no_suffix; [exact Hsuf|]. rewrite header_head. discriminate. }
  apply HasSuffix_CRLF_inv in Hsuf as (q & Hq).
  destruct y as [|a z _] using rev_ind.
  { exfalso. rewrite app_nil_r in Hq.
    destruct (header_last i lenstr) as (H0 & HH). rewrite HH in Hq.
    unfold CRLF in Hq. change [CR; LF] with ([CR] ++ [LF]) in Hq.
    rewrite app_assoc in Hq. apply app_inj_tail in Hq as [_ Hq]. discriminate. }
  change CRLF with ([CR] ++ [LF]) in Hq. rewrite !app_assoc in Hq.
  apply app_inj_tail in Hq as [Hq ->].
  destruct z as [|b z' _] using rev_ind.
  { exfalso. rewrite app_nil_r in Hq. eapply header_not_CR_end. exact Hq. }
  rewrite app_assoc in Hq. apply app_inj_tail in Hq as [_ ->].
  intros d Hc Hle. rewrite <- !app_assoc in Hc.
  rewrite (processUART_SocketDown d i lenstr z' n Hc Hi Hn).
  replace (n =? Z.of_nat (length z'))%Z with false; [reflexivity|].
  symmetry. apply Z.eqb_neq. rewrite !length_app in Hlong. simpl in Hlong. lia.
Qed.

(** X15: once a SocketDown header with declared length [n] is followed by
    more than [n + 2] bytes the event can no longer be finalized: whatever
    bytes arrive next (complete OK or ERROR lines included) are only stored,
    without any signal or change of the sockets, as long as they fit the
    buffer. *)
Theorem overlong_SocketDown_swallows_input
  (d : device) (i lenstr : string) (n : Z) (y bs : bytes) :
  take (pos d) (buf d) = SocketDown_header i lenstr ++ y ->
  no_byte "," (bytes_of i) = true ->
  Atoi lenstr = Some n ->
  (n + 2 < Z.of_nat (length y))%Z ->
  pos d + length bs <= length (buf d) ->
  serviceUART_inner d bs = Ret (stored d bs, [], [])
  /\ pos (stored d bs) = pos d + length bs
  /\ sockets (stored d bs) = sockets d
  /\ last (stored d bs) = last d.
Proof.
  intros Hc Hi Hn Hlong Hfit.
  destruct (stored_props bs d Hfit) as (_ & Hp & _ & Hs & Hl).
  split; [|auto]. apply feed_quiet; [exact Hfit|].
  intros k Hk. rewrite Hc, <- app_assoc.
  apply (quiet_overlong i lenstr n); [exact Hi|exact Hn|].
  rewrite length_app. lia.
Qed.

Lemma overlong_SocketDown_swallows_input_witness :
  serviceUART_inner (dev_holding (bytes_of "+EVENT:SocketDown,3,2,abcdef"))
    (bytes_of "OK" ++ CRLF)
  = Ret (stored (dev_holding (bytes_of "+EVENT:SocketDown,3,2,abcdef"))
           (bytes_of "OK" ++ CRLF), [], []).
Proof.
  apply (proj1 (overlong_SocketDown_swallows_input
                  (dev_holding (bytes_of "+EVENT:SocketDown,3,2,abcdef"))
                  "3" "2" 2 (bytes_of "abcdef") (bytes_of "OK" ++ CRLF)
                  ltac:(vm_compute; reflexivity) eq_refl eq_refl
                  ltac:(vm_compute; reflexivity) ltac:(vm_compute; lia))).
Defined.

Lemma no_byte_take (x : ascii) (l : bytes) (m : nat) :
  no_byte x l = true -> no_byte x (take m l) = true.
Proof.
  intros H. rewrite <- (take_drop m l), no_byte_app in H.
  apply andb_true_iff in H as [H _]. exact H.
Qed.

Lemma no_LF_no_suffix (l : bytes) : no_byte LF l = true -> HasSuffix l CRLF = false.
Proof.
  intros H. destruct (HasSuffix l CRLF) eqn:Hs; [|reflexivity].
  apply HasSuffix_CRLF_inv in Hs as (q & ->).
  change (q ++ CRLF) with (q ++ [CR] ++ LF :: []) in H.
  rewrite app_assoc, no_byte_middle in H. discriminate.
Qed.

Lemma feed_line (d : device) (line : bytes) :
  pos d = 0 ->
  length line + 2 <= length (buf d) ->
  no_byte LF line = true ->
  head (line ++ [CR]) <> Some ">"%char ->
  serviceUART_inner d (line ++ CRLF)
  = ('(d2, evs) ← processUART (stored d (line ++ CRLF)); Ret (d2, [], evs))
  /\ take (pos (stored d (line ++ CRLF))) (buf (stored d (line ++ CRLF)))
     = line ++ CRLF
  /\ length (buf (stored d (line ++ CRLF))) = length (buf d)
  /\ sockets (stored d (line ++ CRLF)) = sockets d
  /\ last (stored d (line ++ CRLF)) = last d.
Proof.
  intros Hpos Hfit Hlf Hhead.
  assert (Hsplit : line ++ CRLF = (line ++ [CR]) ++ [LF])
    by (rewrite <- app_assoc; reflexivity).
  assert (Hlen : length (line ++ CRLF) = length line + 2)
    by (rewrite length_app; reflexivity).
  destruct (stored_props (line ++ CRLF) d ltac:(lia)) as (Hc & _ & Hl & Hs & Hla).
  rewrite Hpos, take_0, app_nil_l in Hc.
  split; [|auto].
  rewrite Hsplit at 1. rewrite feed_last.
  - rewrite readByte_stored, <- stored_app, <- Hsplit. reflexivity.
  - rewrite Hpos, length_app. simpl. lia.
  - intros k Hk. rewrite Hpos, take_0, app_nil_l.
    apply quiet_no_suffix.
    + apply no_LF_no_suffix, no_byte_take.
      rewrite no_byte_app, Hlf. reflexivity.
    + destruct (line ++ [CR]); [simpl in Hk; lia|exact Hhead].
Qed.

Lemma serviceUART_inner_app (a b : bytes) (d d1 : device) (evs1 : list event) :
  serviceUART_inner d a = Ret (d1, [], evs1) ->
  serviceUART_inner d (a ++ b)
  = '(d2, rest, evs2) ← serviceUART_inner d1 b; Ret (d2, rest, evs1 ++ evs2).
Proof.
  revert d evs1. induction a as [|x a IH]; intros d evs1 H.
  - injection H as <- <-. simpl.
    destruct (serviceUART_inner d b) as [[[d2 r2] e2]| |]; reflexivity.
  - simpl in H. cbn [app serviceUART_inner].
    destruct (length (buf d) <=? pos d); [discriminate|].
    destruct (readByte d x) as [[dx evx]| |]; simpl in H; try discriminate.
    destruct (serviceUART_inner dx a) as [[[d2 r2] e2]| |] eqn:H2; simpl in H;
      try discriminate.
    injection H as <- -> <-. cbn [mbind result_bind].
    rewrite (IH dx e2 H2).
    destruct (serviceUART_inner d2 b) as [[[d3 r3] e3]| |]; simpl;
      rewrite ?app_assoc; reflexivity.
Qed.

Lemma feed_plain_line (d : device) (line : bytes) :
  pos d = 0 ->
  length line + 2 <= length (buf d) ->
  no_byte LF line = true ->
  head (line ++ [CR]) <> Some ">"%char ->
  HasPrefix line (bytes_of "+EVENT:") = false ->
  HasPrefix line (bytes_of "OK") = false ->
  HasPrefix line (bytes_of "ERROR") = false ->
  serviceUART_inner d (line ++ CRLF)
  = Ret (if 0 <? length line
         then set_last (set_pos (stored d (line ++ CRLF)) 0) line
         else set_pos (stored d (line ++ CRLF)) 0,
         [], [])
  /\ sockets (stored d (line ++ CRLF)) = sockets d
  /\ last (stored d (line ++ CRLF)) = last d.
Proof.
  intros Hpos Hfit Hlf Hhead Hev Hok Herr.
  destruct (feed_line d line Hpos Hfit Hlf Hhead) as (Hfeed & Hc & _ & Hs & Hla).
  split; [|auto]. rewrite Hfeed.
  assert (Hdown : HasPrefix line (bytes_of "+EVENT:SocketDown") = false).
  { destruct (HasPrefix line (bytes_of "+EVENT:SocketDown")) eqn:Hd; [|reflexivity].
    change (bytes_of "+EVENT:SocketDown")
      with (bytes_of "+EVENT:" ++ bytes_of "SocketDown") in Hd.
    apply HasPrefix_shorter in Hd. congruence. }
  line_prelude Hc. rewrite Hdown, Hok, Herr, Hev.
  destruct (0 <? length line); reflexivity.
Qed.

(** X16: from an empty buffer, a line that has none of the prefixes
    "+EVENT:", "OK", "ERROR" (and does not start with the ready marker) is
    read up to its CR LF without any signal, then the position is reset and
    the line becomes the last line; an empty line resets the position and
    keeps the last line.  The sockets are untouched. *)
Theorem plain_line_becomes_last_line (d : device) (line : bytes) :
  pos d = 0 ->
  length line + 2 <= length (buf d) ->
  no_byte LF line = true ->
  head (line ++ [CR]) <> Some ">"%char ->
  HasPrefix line (bytes_of "+EVENT:") = false ->
  HasPrefix line (bytes_of "OK") = false ->
  HasPrefix line (bytes_of "ERROR") = false ->
  serviceUART_inner d (line ++ CRLF)
  = Ret (if 0 <? length line
         then set_last (set_pos (stored d (line ++ CRLF)) 0) line
         else set_pos (stored d (line ++ CRLF)) 0,
         [], [])
  /\ sockets (stored d (line ++ CRLF)) = sockets d
  /\ last (stored d (line ++ CRLF)) = last d.
Proof. apply feed_plain_line. Qed.

Lemma plain_line_becomes_last_line_witness :
  serviceUART_inner NewDevice (bytes_of "+SOCKET=3" ++ CRLF)
  = Ret (set_last (set_pos (stored NewDevice (bytes_of "+SOCKET=3" ++ CRLF)) 0)
           (bytes_of "+SOCKET=3"), [], []).
Proof.
  apply (proj1 (plain_line_becomes_last_line NewDevice (bytes_of "+SOCKET=3")
                  eq_refl ltac:(vm_compute; lia) eq_refl ltac:(discriminate)
                  eq_refl eq_refl eq_refl)).
Defined.

Lemma feed_OK_line (d : device) (rest : bytes) :
  pos d = 0 ->
  length rest + 4 <= length (buf d) ->
  no_byte LF rest = true ->
  serviceUART_inner d (bytes_of "OK" ++ rest ++ CRLF)
  = Ret (set_pos (stored d (bytes_of "OK" ++ rest ++ CRLF)) 0, [], [Sent SigOk]).
Proof.
  intros Hpos Hfit Hlf. rewrite app_assoc.
  destruct (feed_line d (bytes_of "OK" ++ rest) Hpos) as (Hfeed & Hc & _).
  { rewrite length_app. simpl. lia. }
  { rewrite no_byte_app, Hlf. reflexivity. }
  { discriminate. }
  rewrite Hfeed. line_prelude Hc.
  assert (Hok : HasPrefix (bytes_of "OK" ++ rest) ("O"%char :: bytes_of "K") = true)
    by exact (HasPrefix_app (bytes_of "OK") rest).
  assert (Hdown : HasPrefix (bytes_of "OK" ++ rest) (bytes_of "+EVENT:SocketDown") = false)
    by exact (HasPrefix_other_head _ (bytes_of "K") (bytes_of "EVENT:SocketDown") "O" "+"
                ltac:(discriminate) Hok).
  rewrite Hdown, HasPrefix_app. reflexivity.
Qed.

Lemma feed_ERROR_line (d : device) (rest : bytes) :
  pos d = 0 ->
  length rest + 7 <= length (buf d) ->
  no_byte LF rest = true ->
  serviceUART_inner d (bytes_of "ERROR" ++ rest ++ CRLF)
  = Ret (set_pos (stored d (bytes_of "ERROR" ++ rest ++ CRLF)) 0, [],
         [Sent (SigErr (ErrNew (getErrStr (last d))))]).
Proof.
  intros Hpos Hfit Hlf. rewrite app_assoc.
  destruct (feed_line d (bytes_of "ERROR" ++ rest) Hpos) as (Hfeed & Hc & _ & _ & Hla).
  { rewrite length_app. simpl. lia. }
  { rewrite no_byte_app, Hlf. reflexivity. }
  { discriminate. }
  rewrite Hfeed. line_prelude Hc.
  assert (Herr : HasPrefix (bytes_of "ERROR" ++ rest) ("E"%char :: bytes_of "RROR") = true)
    by exact (HasPrefix_app (bytes_of "ERROR") rest).
  assert (Hdown : HasPrefix (bytes_of "ERROR" ++ rest) (bytes_of "+EVENT:SocketDown") = false)
    by exact (HasPrefix_other_head _ (bytes_of "RROR") (bytes_of "EVENT:SocketDown") "E" "+"
                ltac:(discriminate) Herr).
  assert (Hok : HasPrefix (bytes_of "ERROR" ++ rest) (bytes_of "OK") = false)
    by exact (HasPrefix_other_head _ (bytes_of "RROR") (bytes_of "K") "E" "O"
                ltac:(discriminate) Herr).
  rewrite Hdown, Hok, HasPrefix_app, Hla. reflexivity.
Qed.

(** X17: end to end, from an empty buffer: an OK line (whatever follows "OK"
    on the line) makes the waiting [execute] return nil; a plain line
    followed by an ERROR line makes it return the error decoded from the
    plain line, whatever the ERROR line itself carries after "ERROR". *)
Theorem command_outcome_follows_lines
  (d : device) (line rest : bytes) (cmd : string) (timeout : Z) :
  pos d = 0 ->
  length line + 2 <= length (buf d) ->
  length rest + 7 <= length (buf d) ->
  no_byte LF line = true ->
  no_byte LF rest = true ->
  0 < length line ->
  head (line ++ [CR]) <> Some ">"%char ->
  HasPrefix line (bytes_of "+EVENT:") = false ->
  HasPrefix line (bytes_of "OK") = false ->
  HasPrefix line (bytes_of "ERROR") = false ->
  (exists d1,
      serviceUART_inner d (bytes_of "OK" ++ rest ++ CRLF) = Ret (d1, [], [Sent SigOk])
      /\ pos d1 = 0
      /\ (execute cmd timeout (world0 (offers_of [Sent SigOk]))).1 = None)
  /\ (exists d2,
        serviceUART_inner d ((line ++ CRLF) ++ bytes_of "ERROR" ++ rest ++ CRLF)
        = Ret (d2, [], [Sent (SigErr (ErrNew (getErrStr line)))])
        /\ pos d2 = 0 /\ last d2 = line
        /\ (execute cmd timeout
              (world0 (offers_of [Sent (SigErr (ErrNew (getErrStr line)))]))).1
           = Some (ErrNew (getErrStr line))).
Proof.
  intros Hpos Hfit1 Hfit2 Hlf1 Hlf2 Hne Hhead Hev Hok Herr. split.
  - eexists. split; [apply feed_OK_line; [exact Hpos|lia|exact Hlf2]|].
    split; reflexivity.
  - destruct (feed_plain_line d line Hpos Hfit1 Hlf1 Hhead Hev Hok Herr) as (H1 & _ & _).
    apply Nat.ltb_lt in Hne. rewrite Hne in H1.
    destruct (stored_props (line ++ CRLF) d
                ltac:(rewrite Hpos, length_app; simpl; lia)) as (_ & _ & Hl & _).
    set (d1 := set_last (set_pos (stored d (line ++ CRLF)) 0) line) in *.
    eexists. split.
    + rewrite (serviceUART_inner_app _ _ _ _ _ H1).
      rewrite (feed_ERROR_line d1 rest eq_refl); [reflexivity| |exact Hlf2].
      simpl. rewrite Hl. exact Hfit2.
    + split; [reflexivity|]. split; [|reflexivity].
      destruct (stored_props (bytes_of "ERROR" ++ rest ++ CRLF) d1) as (_ & _ & _ & _ & Hla).
      { simpl pos. simpl buf. rewrite Hl, !length_app. simpl. lia. }
      exact Hla.
Qed.

Lemma command_outcome_follows_lines_witness :
  exists d2,
    serviceUART_inner NewDevice
      ((bytes_of "+ERR:104" ++ CRLF) ++ bytes_of "ERROR" ++ [] ++ CRLF)
    = Ret (d2, [], [Sent (SigErr (ErrNew (getErrStr (bytes_of "+ERR:104"))))])
    /\ pos d2 = 0 /\ last d2 = bytes_of "+ERR:104"
    /\ (execute "AT" 1000
          (world0 (offers_of [Sent (SigErr (ErrNew (getErrStr (bytes_of "+ERR:104"))))]))).1
       = Some (ErrNew (getErrStr (bytes_of "+ERR:104"))).
Proof.
  apply (proj2 (command_outcome_follows_lines NewDevice (bytes_of "+ERR:104") []
                  "AT" 1000 eq_refl ltac:(vm_compute; lia) ltac:(vm_compute; lia)
                  eq_refl eq_refl ltac:(vm_compute; lia) ltac:(discriminate)
                  eq_refl eq_refl eq_refl)).
Defined.

(** ** Ready marker *)

Lemma readByte_ready_marker (d : device) :
  (pos d = 0 -> 0 < length (buf d) ->
   readByte d ">" = Ret (set_pos (stored d [">"%char]) 0, [Sent SigTxReady]))
  /\ (0 < pos d < length (buf d) ->
      readByte d ">" = Ret (stored d [">"%char], [])).
Proof.
  split.
  - intros Hpos Hlen. rewrite readByte_stored. unfold processUART. simpl stored.
    cbn [pos buf set_pos set_buf]. rewrite Hpos.
    rewrite list_lookup_insert_eq by exact Hlen.
    rewrite bool_decide_eq_true_2 by reflexivity. reflexivity.
  - intros Hpos. rewrite readByte_stored.
    destruct (stored_props [">"%char] d ltac:(simpl; lia)) as (Hc & Hp & _).
    unfold processUART.
    replace (pos (stored d [">"%char]) =? 1) with false
      by (symmetry; apply Nat.eqb_neq; rewrite Hp; cbn [length]; lia).
    cbn [andb]. rewrite Hc.
    replace (HasSuffix (take (pos d) (buf d) ++ [">"%char]) CRLF) with false;
      [reflexivity|].
    symmetry. destruct (HasSuffix _ _) eqn:Hs; [|reflexivity].
    apply HasSuffix_CRLF_inv in Hs as (q & Hs).
    change (q ++ CRLF) with (q ++ [CR] ++ [LF]) in Hs. rewrite app_assoc in Hs.
    apply app_inj_tail in Hs as [_ Hs]. discriminate.
Qed.

(** X18: the byte ">" is the ready marker only as the first byte after a
    reset: then it is signalled at once and the position goes back to zero,
    so it is never part of a line.  Read at any later position it is stored
    like any other byte and nothing is signalled. *)
Theorem ready_marker_only_as_first_byte (d : device) :
  (pos d = 0 -> 0 < length (buf d) ->
   readByte d ">" = Ret (set_pos (stored d [">"%char]) 0, [Sent SigTxReady]))
  /\ (0 < pos d < length (buf d) ->
      readByte d ">" = Ret (stored d [">"%char], [])).
Proof. apply readByte_ready_marker. Qed.

Lemma ready_marker_only_as_first_byte_witness :
  readByte NewDevice ">" = Ret (set_pos (stored NewDevice [">"%char]) 0, [Sent SigTxReady]).
Proof.
  apply (proj1 (ready_marker_only_as_first_byte NewDevice));
    [reflexivity|vm_compute; lia].
Defined.

(** ** Error lines and fields *)

Lemma errStrings_nonempty :
  map_Forall (fun _ (s : string) => s <> "") errStrings.
Proof.
  assert (H : bool_decide
                (map_Forall (fun (_ : Z) (s : string) => s <> "") errStrings) = true)
    by (vm_compute; reflexivity).
  apply bool_decide_eq_true in H. exact H.
Qed.

Lemma Split_length (s : bytes) (sep : ascii) :
  length (Split s sep) = S (count_byte sep s).
Proof.
  induction s as [|c s IH]; [reflexivity|]. cbn [Split count_byte].
  destruct (Ascii.eqb c sep); [cbn [length]; rewrite IH; reflexivity|].
  destruct (Split s sep) as [|p ps]; simpl in *; lia.
Qed.

Lemma count_byte_zero (x : ascii) (l : bytes) :
  count_byte x l = 0 <-> no_byte x l = true.
Proof.
  induction l as [|c l IH]; simpl; [tauto|]. unfold no_byte in *. cbn [forallb].
  destruct (Ascii.eqb c x); simpl; [split; discriminate|exact IH].
Qed.

(** X19: [getErrStr] returns the empty text exactly when the second
    ":"-separated field of the line parses as an [int] that has no entry in
    the table (every entry of the table is a non-empty text); a line without
    ":" gives the "Can't parse ERROR response" text. *)
Theorem getErrStr_empty_iff_unmapped (errLine : bytes) :
  (getErrStr errLine = ""
   <-> exists tok code,
        Split errLine ":" !! 1 = Some tok
        /\ Atoi (str tok) = Some code
        /\ errStrings !! code = None)
  /\ (no_byte ":" errLine = true ->
      getErrStr errLine = "Can't parse ERROR response").
Proof.
  split.
  - split.
    + unfold getErrStr. destruct (1 <? length (Split errLine ":")); [|discriminate].
      destruct (Split errLine ":" !! 1) as [tok|]; [|discriminate].
      destruct (Atoi (str tok)) as [code|] eqn:Hcode; [|discriminate].
      unfold errStrings_at. destruct (errStrings !! code) as [s|] eqn:Hs.
      * simpl. intros ->. exfalso. apply (errStrings_nonempty code "" Hs). reflexivity.
      * intros _. exists tok, code. auto.
    + intros (tok & code & Htok & Hcode & Hnone).
      rewrite (getErrStr_code errLine tok code Htok Hcode).
      unfold errStrings_at. rewrite Hnone. reflexivity.
  - intros Hno. unfold getErrStr. rewrite Split_length.
    apply count_byte_zero in Hno. rewrite Hno. reflexivity.
Qed.

Lemma getErrStr_empty_iff_unmapped_witness :
  getErrStr (bytes_of "ERROR") = "Can't parse ERROR response".
Proof.
  apply (proj2 (getErrStr_empty_iff_unmapped (bytes_of "ERROR"))). reflexivity.
Defined.

Lemma Split_nonempty (s : bytes) (sep : ascii) : Split s sep <> [].
Proof.
  intros H. apply (f_equal length) in H. rewrite Split_length in H. discriminate.
Qed.

Lemma Split_Join (s : bytes) (sep : ascii) : Join (Split s sep) sep = s.
Proof.
  induction s as [|c s IH]; [reflexivity|]. cbn [Split].
  pose proof (Split_nonempty s sep) as Hne.
  destruct (Ascii.eqb_spec c sep) as [->|Hc].
  - cbn [Join]. destruct (Split s sep) as [|p ps] eqn:Hs; [contradiction|].
    rewrite IH. reflexivity.
  - destruct (Split s sep) as [|p ps] eqn:Hs; [contradiction|].
    destruct ps as [|p' ps']; simpl in *; rewrite <- IH; reflexivity.
Qed.

Lemma Split_no_sep (s : bytes) (sep : ascii) :
  Forall (fun p => no_byte sep p = true) (Split s sep).
Proof.
  induction s as [|c s IH]; [repeat constructor|]. cbn [Split].
  destruct (Ascii.eqb c sep) eqn:Hc.
  - constructor; [reflexivity|exact IH].
  - destruct (Split s sep) as [|p ps]; [repeat constructor; simpl; rewrite Hc; reflexivity|].
    inversion IH as [|? ? Hp Hps]; subst. constructor; [|exact Hps].
    unfold no_byte in *. cbn [forallb]. rewrite Hc, Hp. reflexivity.
Qed.

(** X20: [split] cuts the response at every separator: the fields contain
    no separator, there is one more field than separators, and joining them
    with the separator gives the response back; [split] returns field [part]
    as a string, and the text "Split parts error getting <on>" exactly when
    [part] is not below the number of fields, in particular for field 1 of a
    response without separator. *)
Theorem split_returns_field_or_error_text
  (resp : bytes) (part : nat) (del : ascii) (on : string) :
  Join (Split resp del) del = resp
  /\ Forall (fun p => no_byte del p = true) (Split resp del)
  /\ length (Split resp del) = S (count_byte del resp)
  /\ (part <= count_byte del resp ->
      exists f, Split resp del !! part = Some f /\ split resp part del on = str f)
  /\ (count_byte del resp < part ->
      split resp part del on = "Split parts error getting " +:+ on).
Proof.
  split; [apply Split_Join|]. split; [apply Split_no_sep|].
  split; [apply Split_length|]. unfold split. split.
  - intros Hle. destruct (Split resp del !! part) as [f|] eqn:Hf; [eauto|].
    apply lookup_ge_None in Hf. rewrite Split_length in Hf. lia.
  - intros Hlt. rewrite lookup_ge_None_2; [reflexivity|].
    rewrite Split_length. lia.
Qed.

Lemma split_returns_field_or_error_text_witness :
  (exists f, Split (bytes_of "+SOCKET=3") "=" !! 1 = Some f
             /\ split (bytes_of "+SOCKET=3") 1 "=" "connection ID" = str f)
  /\ split (bytes_of "+SOCKET 3") 1 "=" "connection ID"
     = "Split parts error getting connection ID".
Proof.
  split.
  - apply (proj1 (proj2 (proj2 (proj2 (split_returns_field_or_error_text
             (bytes_of "+SOCKET=3") 1 "=" "connection ID"))))).
    vm_compute. lia.
  - apply (proj2 (proj2 (proj2 (proj2 (split_returns_field_or_error_text
             (bytes_of "+SOCKET 3") 1 "=" "connection ID"))))).
    vm_compute. lia.
Defined.

(** ** The reader and the caller together *)





(** ** Decimal lengths *)

Lemma digit_of_nat (m : nat) :
  m < 10 -> digit (ascii_of_nat (48 + m)) = Some (Z.of_nat m).
Proof.
  intros H. do 10 (destruct m as [|m]; [reflexivity|]). lia.
Qed.

Lemma itoa_fuel_digits (fuel n : nat) (acc : bytes) :
  n < fuel ->
  exists c rest (m : nat),
    itoa_fuel fuel n acc = c :: rest
    /\ digit c <> None
    /\ forall k, digits k (itoa_fuel fuel n acc)
                 = digits (k * 10 ^ Z.of_nat m + Z.of_nat n)%Z acc.
Proof.
  revert n acc. induction fuel as [|fuel IH]; intros n acc Hlt; [lia|].
  cbn [itoa_fuel].
  assert (Hmod : n mod 10 < 10) by (apply Nat.mod_upper_bound; lia).
  pose proof (digit_of_nat (n mod 10) Hmod) as Hd.
  destruct (n <? 10) eqn:Hsmall.
  - apply Nat.ltb_lt in Hsmall. rewrite Nat.mod_small in * by exact Hsmall.
    exists (ascii_of_nat (48 + n)), acc, 1.
    split; [reflexivity|]. split; [rewrite Hd; discriminate|].
    intros k. cbn [digits]. rewrite Hd. reflexivity.
  - apply Nat.ltb_ge in Hsmall.
    assert (Hdiv : n / 10 < fuel).
    { pose proof (Nat.div_lt n 10 ltac:(lia) ltac:(lia)). lia. }
    destruct (IH (n / 10) (ascii_of_nat (48 + n mod 10) :: acc) Hdiv)
      as (c & rest & m & Hc & Hdc & Hk).
    exists c, rest, (S m). split; [exact Hc|]. split; [exact Hdc|].
    intros k. rewrite Hk. cbn [digits]. rewrite Hd. f_equal.
    rewrite Nat2Z.inj_succ, Z.pow_succ_r by lia.
    pose proof (Nat.div_mod_eq n 10) as Hn.
    apply (f_equal Z.of_nat) in Hn.
    rewrite Nat2Z.inj_add, Nat2Z.inj_mul in Hn. simpl (Z.of_nat 10) in Hn. lia.
Qed.

Lemma Atoi_Itoa (n : nat) :
  (Z.of_nat n <= maxInt)%Z ->
  Atoi (Itoa n) = Some (Z.of_nat n)
  /\ no_byte "," (bytes_of (Itoa n)) = true
  /\ no_byte LF (bytes_of (Itoa n)) = true.
Proof.
  intros Hmax.
  assert (HA : Atoi (Itoa n) = Some (Z.of_nat n)).
  { destruct (itoa_fuel_digits (S n) n [] ltac:(lia)) as (c & rest & m & Hc & Hdc & Hk).
    unfold Atoi, Itoa, bytes_of, str. rewrite list_ascii_of_string_of_list_ascii, Hc.
    assert (Hm : Ascii.eqb c "-" = false).
    { destruct (Ascii.eqb_spec c "-") as [->|]; [contradiction Hdc; reflexivity|reflexivity]. }
    assert (Hp : Ascii.eqb c "+" = false).
    { destruct (Ascii.eqb_spec c "+") as [->|]; [contradiction Hdc; reflexivity|reflexivity]. }
    pose proof (Hk 0%Z) as H0. rewrite Hc in H0.
    change (digits (0 * 10 ^ Z.of_nat m + Z.of_nat n)%Z [])
      with (Some (0 * 10 ^ Z.of_nat m + Z.of_nat n)%Z) in H0.
    rewrite Hm, Hp. cbv match. rewrite H0.
    replace (0 * 10 ^ Z.of_nat m + Z.of_nat n)%Z with (Z.of_nat n) by lia.
    replace (minInt <=? Z.of_nat n)%Z with true
      by (symmetry; apply Z.leb_le; change minInt with (-2147483648)%Z; lia).
    replace (Z.of_nat n <=? maxInt)%Z with true by (symmetry; apply Z.leb_le; exact Hmax).
    reflexivity. }
  split; [exact HA|]. split.
  - apply (Atoi_no_byte "," (Itoa n) (Z.of_nat n)); [reflexivity|discriminate..|exact HA].
  - apply (Atoi_no_byte LF (Itoa n) (Z.of_nat n)); [reflexivity|discriminate..|exact HA].
Qed.

(** X23: the decimal text of a length, as [Send] puts it into its command,
    is read back by [strconv.Atoi] as the same number, for every length that
    fits [int]; it contains neither a comma nor a line feed. *)
Theorem Itoa_Atoi_round_trip (n : nat) :
  (Z.of_nat n <= maxInt)%Z ->
  Atoi (Itoa n) = Some (Z.of_nat n)
  /\ no_byte "," (bytes_of (Itoa n)) = true
  /\ no_byte LF (bytes_of (Itoa n)) = true.
Proof. apply Atoi_Itoa. Qed.

Lemma Itoa_Atoi_round_trip_witness : Atoi (Itoa 1460) = Some 1460%Z.
Proof.
  apply (proj1 (Itoa_Atoi_round_trip 1460 ltac:(vm_compute; discriminate))).
Defined.

(** ** From the wire to the caller *)

(** X24: end to end for one event: from an empty buffer, when the reader has
    parsed a SocketDown event whose length field is the decimal length of
    its data and whose id [findSocket] resolves to an open socket with
    nothing pending, the next [Recv] on that socket with a buffer at least
    as large as the data returns exactly the data (CR and LF bytes
    included) with a nil error, and leaves nothing pending. *)
Theorem SocketDown_then_Recv_returns_data
  (d : device) (i : string) (data : bytes) (fd : nat) (s : socket)
  (cap : nat) (fl dl : Z) :
  pos d = 0 ->
  length (buf d) = bufLen ->
  length (sockets d) = nSockets ->
  length (SocketDown_frame i (Itoa (length data)) data) <= bufLen ->
  no_byte "," (bytes_of i) = true ->
  no_byte LF (bytes_of i) = true ->
  findSocket d i = Ret (inl fd) ->
  sockets d !! fd = Some (Some s) ->
  closed (rx s) = false ->
  queue (rx s) = [] ->
  remainder s = [] ->
  length data <= cap ->
  exists d1 d2 s2,
    serviceUART_inner d (SocketDown_frame i (Itoa (length data)) data)
    = Ret (d1, [], [Queued fd data])
    /\ Recv d1 (Z.of_nat fd) cap fl dl = Ret (d2, (data, None))
    /\ sockets d2 !! fd = Some (Some s2)
    /\ pending s2 = [].
Proof.
  intros Hpos Hbuf Hlen Hfit Hic Hil Hf Hs Hopen Hq Hrem Hcap.
  assert (Hdata : (Z.of_nat (length data) <= maxInt)%Z).
  { assert (length data <= bufLen).
    { unfold SocketDown_frame in Hfit. rewrite !length_app in Hfit. lia. }
    unfold bufLen in H. change maxInt with 2147483647%Z. lia. }
  destruct (Atoi_Itoa (length data) Hdata) as [HA _].
  assert (Hlt : fd < length (sockets d)) by (eapply lookup_lt_Some; exact Hs).
  assert (Hroom : length (queue (rx s)) < rxCap).
  { rewrite Hq. unfold rxCap. cbn [length]. lia. }
  assert (Hfit' : length (SocketDown_frame i (Itoa (length data)) data) <= length (buf d)).
  { rewrite Hbuf. exact Hfit. }
  destruct (SocketDown_framing d i (Itoa (length data)) data fd s Hpos
              Hfit' Hic Hil HA Hf Hs Hopen Hroom) as [_ Hlast].
  assert (Hfit2 : pos d + length (SocketDown_frame i (Itoa (length data)) data) <= length (buf d)).
  { rewrite Hpos. exact Hfit'. }
  destruct (stored_props (SocketDown_frame i (Itoa (length data)) data) d Hfit2)
    as (_ & _ & _ & Hss & _).
  rewrite Hq in Hlast. rewrite app_nil_l in Hlast.
  remember (stored d (SocketDown_frame i (Itoa (length data)) data)) as d0 eqn:Ed0.
  remember (SocketDown_frame i (Itoa (length data)) data) as F eqn:EF.
  clear Ed0 EF HA Hfit Hfit' Hfit2 Hroom Hdata.
  remember (set_rx s {| queue := [data]; closed := false |}) as s1 eqn:Es1.
  remember (store (set_pos d0 0) fd s1) as d1 eqn:Ed1.
  assert (Hsock1 : sockets d1 = <[fd := Some s1]> (sockets d)).
  { rewrite Ed1. unfold store, set_pos, set_sockets. cbn [sockets]. rewrite Hss. reflexivity. }
  assert (Hs1 : sockets d1 !! fd = Some (Some s1)).
  { rewrite Hsock1. apply list_lookup_insert_eq. exact Hlt. }
  assert (Hlen1 : length (sockets d1) = nSockets).
  { rewrite Hsock1, length_insert. exact Hlen. }
  assert (Hrem1 : remainder s1 = []) by (rewrite Es1; exact Hrem).
  assert (Hq1 : queue (rx s1) = [data]) by (rewrite Es1; reflexivity).
  pose proof (Recv_next_chunk d1 fd s1 data [] cap fl dl Hlen1 Hs1 Hrem1 Hq1) as HR.
  rewrite take_ge, drop_ge in HR by lia.
  clear Ed1 Es1.
  eexists d1, _, _. split; [exact Hlast|]. split; [exact HR|]. split.
  - unfold store, set_sockets. cbn [sockets]. apply list_lookup_insert_eq.
    rewrite Hlen1. rewrite Hlen in Hlt. exact Hlt.
  - unfold pending, set_remainder, set_rx. cbn [remainder rx queue concat app]. reflexivity.
Qed.

Lemma SocketDown_then_Recv_returns_data_witness :
  exists d1 d2 s2,
    serviceUART_inner (dev_with 0 sock3)
      (SocketDown_frame "3" (Itoa 8) (bytes_of "ab" ++ CRLF ++ bytes_of "cdef"))
    = Ret (d1, [], [Queued 0 (bytes_of "ab" ++ CRLF ++ bytes_of "cdef")])
    /\ Recv d1 0 64 0 0 = Ret (d2, (bytes_of "ab" ++ CRLF ++ bytes_of "cdef", None))
    /\ sockets d2 !! 0 = Some (Some s2)
    /\ pending s2 = [].
Proof.
  apply (SocketDown_then_Recv_returns_data (dev_with 0 sock3) "3"
           (bytes_of "ab" ++ CRLF ++ bytes_of "cdef") 0 sock3 64 0 0);
    try (vm_compute; reflexivity); vm_compute; lia.
Defined.
